(** * pctheory.pset: interval content, similarity and transformations of psets

    A shallow embedding of [pctheory/pset.py].  Python sets are finite sets
    ([gset]), dictionaries are finite maps ([gmap]), Python integers are [Z],
    and a call that can raise is a computation in a small error monad. *)

From stdpp Require Import gmap list sorting fin_maps fin_sets.
From Stdlib Require Import ZArith Lia.

Local Open Scope Z_scope.

(** ** Exceptions *)

Inductive exn : Set :=
  | TypeError
  | StopIteration
  | OverflowError.

Inductive result (A : Type) : Type :=
  | Ok (a : A)
  | Raise (e : exn).
Arguments Ok {A} a.
Arguments Raise {A} e.

Global Instance result_ret : MRet result := λ A a, Ok a.

Global Instance result_bind : MBind result := λ A B k c,
  match c with
  | Ok a => k a
  | Raise e => Raise e
  end.

(** ** Pitch elements *)

(** Modelled from the spec: the classes of [pctheory/pitch.py], which is not
    part of the sources.  A pitch element carries its variant and a signed
    integer value [p] that is stored as given (not reduced); two elements are
    equal iff variant and value agree; elements are ordered by value. *)
Inductive variant : Set :=
  | PitchClass12
  | PitchClass24
  | Pitch12.

Record pitch : Set := mkPitch { kind : variant; p : Z }.

Global Instance variant_eq_dec : EqDecision variant.
Proof. solve_decision. Defined.

Global Instance pitch_eq_dec : EqDecision pitch.
Proof. solve_decision. Defined.

Definition variant_code (v : variant) : nat :=
  match v with PitchClass12 => 0%nat | PitchClass24 => 1%nat | Pitch12 => 2%nat end.

Definition variant_of_code (n : nat) : variant :=
  match n with O => PitchClass12 | S O => PitchClass24 | _ => Pitch12 end.

Definition pitch_code_inj (x : pitch) :
  mkPitch (variant_of_code (variant_code (kind x))) (p x) = x :=
  match x with
  | mkPitch PitchClass12 _ => eq_refl
  | mkPitch PitchClass24 _ => eq_refl
  | mkPitch Pitch12 _ => eq_refl
  end.

Global Instance pitch_countable : Countable pitch :=
  inj_countable' (λ x, (variant_code (kind x), p x))
                 (λ c, mkPitch (variant_of_code c.1) c.2) pitch_code_inj.

Global Instance pitch_inhabited : Inhabited pitch := populate (mkPitch Pitch12 0).

(** [__lt__] of pitch elements compares values; [list.sort] is a stable sort
    that only uses [__lt__], so it is the stable merge sort by [p]. *)
Definition pitch_le (x y : pitch) : Prop := p x ≤ p y.

Global Instance pitch_le_dec : RelDecision pitch_le.
Proof. intros x y. unfold pitch_le. apply _. Defined.

Definition sort_pitches (l : list pitch) : list pitch := merge_sort pitch_le l.

(** [pseg = list(pset); pseg.sort()] *)
Definition sorted_pseg (pset : gset pitch) : list pitch :=
  sort_pitches (elements pset).

Definition pc12 (z : Z) : pitch := mkPitch PitchClass12 z.
Definition pc24 (z : Z) : pitch := mkPitch PitchClass24 z.

(** ** Python builtins on the objects these functions handle *)

Inductive pytype : Set :=
  | TSet
  | TSetIterator
  | TPitch (v : variant).

Inductive pyobj : Type :=
  | OSet (s : gset pitch)
  | OSetIterator (rest : list pitch)
  | OPitch (x : pitch).

Global Instance pytype_eq_dec : EqDecision pytype.
Proof. solve_decision. Defined.

Definition py_type (o : pyobj) : pytype :=
  match o with
  | OSet _ => TSet
  | OSetIterator _ => TSetIterator
  | OPitch x => TPitch (kind x)
  end.

(** [next(o)]: only an iterator has [__next__]; a set is iterable but is not
    an iterator, so [next] of a set raises [TypeError]. *)
Definition py_next (o : pyobj) : result pyobj :=
  match o with
  | OSetIterator (x :: _) => Ok (OPitch x)
  | OSetIterator [] => Raise StopIteration
  | OSet _ => Raise TypeError
  | OPitch _ => Raise TypeError
  end.

(** [iter(o)] *)
Definition py_iter (o : pyobj) : result pyobj :=
  match o with
  | OSet s => Ok (OSetIterator (elements s))
  | OSetIterator rest => Ok (OSetIterator rest)
  | OPitch _ => Raise TypeError
  end.

(** [t(z)]: calling a type object on an integer.  Only the pitch classes
    build a pitch element out of an integer. *)
Definition py_construct (t : pytype) (z : Z) : result pitch :=
  match t with
  | TPitch v => Ok (mkPitch v z)
  | TSet => Raise TypeError
  | TSetIterator => Raise TypeError
  end.

(** [for x in l: s = body(s, x)] where the body can raise *)
Fixpoint for_in {A S : Type} (l : list A) (body : S → A → result S) (s : S)
  : result S :=
  match l with
  | [] => Ok s
  | x :: l' => s' ← body s x; for_in l' body s'
  end.

(** The expression [type(iter(next(pset)))] that [fb_class], [invert],
    [pcint_class], [subsets] and [transpose] evaluate on their argument. *)
Definition type_iter_next (pset : gset pitch) : result pytype :=
  o ← py_next (OSet pset);
  it ← py_iter o;
  mret (py_type it).

(** [12 if t == pitch.PitchClass12 else 24] *)
Definition modulus_of (t : pytype) : Z :=
  if decide (t = TPitch PitchClass12) then 12 else 24.

(** ** fb_class *)

(** The list [intlist] after the loop and [intlist.sort()]. *)
Definition fb_sorted (n : Z) (pset : gset pitch) (p0 : Z) : list Z :=
  merge_sort Z.le ((λ x, (p x - p0) `mod` n) <$> elements pset).

(** [if len(intlist) > 0: del intlist[0]] *)
Definition fb_intlist (n : Z) (pset : gset pitch) (p0 : Z) : list Z :=
  match fb_sorted n pset p0 with
  | [] => []
  | _ :: rest => rest
  end.

(** The entry that [del intlist[0]] removes, if any. *)
Definition fb_removed (n : Z) (pset : gset pitch) (p0 : Z) : option Z :=
  head (fb_sorted n pset p0).

Definition fb_class (pset : gset pitch) (p0 : Z) : result (list Z) :=
  t ← type_iter_next pset;
  mret (fb_intlist (modulus_of t) pset p0).

(** ** invert *)

Definition invert_loop (t : pytype) (pset : gset pitch) : result (gset pitch) :=
  for_in (elements pset)
    (λ pset2 x, y ← py_construct t (p x * -1); mret ({[ y ]} ∪ pset2)) ∅.

Definition invert (pset : gset pitch) : result (gset pitch) :=
  t ← type_iter_next pset;
  invert_loop t pset.

(** ** p_ic_matrix *)

(** The grid of [numpy.empty((n, n))] holds float64 numbers.  A float64
    with an integral value is represented by that value; every number the
    code stores into the grid is the float64 nearest to an integer, which is
    integral. *)

(** The float64 nearest to the integer [z ≥ 0]: integers below 2^53 are
    kept; above, the 53 leading bits are kept and the rest is rounded to the
    nearest, a tie going to the even significand. *)
Definition float64_round_nonneg (z : Z) : Z :=
  if decide (z < 2 ^ 53) then z
  else
    let e := Z.log2 z - 52 in
    let q := z `div` 2 ^ e in
    let r := z `mod` 2 ^ e in
    let half := 2 ^ (e - 1) in
    let q' := if decide (r < half) then q
              else if decide (half < r) then q + 1
              else if Z.even q then q else q + 1 in
    q' * 2 ^ e.

Definition float64_round (z : Z) : Z :=
  Z.sgn z * float64_round_nonneg (Z.abs z).

(** Converting a Python integer to float64, as storing it into a float64
    grid does: an integer whose nearest float64 is out of range raises
    [OverflowError]. *)
Definition float64_of_int (z : Z) : result Z :=
  let x := float64_round z in
  if decide (Z.abs x < 2 ^ 1024) then Ok x else Raise OverflowError.

(** Writing the float64 [x] into cell [i][j]. *)
Definition mx_put (mx : list (list Z)) (i j : nat) (x : Z) : list (list Z) :=
  alter (λ row, <[j := x]> row) i mx.

(** [mx[i][j] = v] for a Python integer [v] *)
Definition mx_store (mx : list (list Z)) (i j : nat) (v : Z)
  : result (list (list Z)) :=
  x ← float64_of_int v;
  mret (mx_put mx i j x).

Section Matrix.
(** [numpy.empty] returns a grid whose cells hold whatever the memory
    held; [uninit i j] is that content of cell [i][j]. *)
Variable uninit : nat → nat → Z.

Definition numpy_empty (rows cols : nat) : list (list Z) :=
  (λ i, uninit i <$> seq 0 cols) <$> seq 0 rows.

Definition p_ic_matrix (pset : gset pitch) : result (list (list Z)) :=
  let n := size pset in
  let mx := numpy_empty n n in
  let pseg := sorted_pseg pset in
  for_in (seq 0 n)
    (λ mx i,
       for_in (seq 0 n)
         (λ mx j,
            mx_store mx i j (Z.abs (p (pseg !!! i) - p (pseg !!! j))))
         mx)
    mx.
End Matrix.

(** [mx[i][j]] read back *)
Definition cell (mx : list (list Z)) (i j : nat) : option Z :=
  row ← mx !! i; row !! j.

(** ** p_ic_roster *)

(** [if interval not in roster: roster[interval] = 1
     else: roster[interval] += 1] *)
Definition roster_count (roster : gmap Z Z) (interval : Z) : gmap Z Z :=
  match roster !! interval with
  | None => <[interval := 1]> roster
  | Some c => <[interval := c + 1]> roster
  end.

(** [range(k - 1, -1, -1)] *)
Definition range_down (k : nat) : list nat := reverse (seq 0 k).

Definition roster_loop (pseg : list pitch) (roster : gmap Z Z) (len : nat)
  : gmap Z Z :=
  foldl (λ roster i,
    foldl (λ roster j,
      roster_count roster (Z.abs (p (pseg !!! i) - p (pseg !!! j))))
      roster (range_down i))
    roster (range_down len).

Definition p_ic_roster (pset : gset pitch) : gmap Z Z :=
  let pseg := sorted_pseg pset in
  roster_loop pseg ∅ (length pseg).

(** Sum of the counts of a roster. *)
Definition roster_total (roster : gmap Z Z) : Z :=
  map_fold (λ _ c acc, acc + c) 0 roster.

(** ** pcint_class *)

(** [for i in range(1, len(pseg)): intlist.append((pseg[i].p - pseg[i-1].p) % n)] *)
Definition pcint_intlist (n : Z) (pseg : list pitch) : list Z :=
  (λ i, (p (pseg !!! i) - p (pseg !!! (i - 1)%nat)) `mod` n)
    <$> seq 1 (length pseg - 1).

Definition pcint_class (pset : gset pitch) : result (list Z) :=
  let pseg := sorted_pseg pset in
  t ← type_iter_next pset;
  mret (pcint_intlist (modulus_of t) pseg).

(** ** pm_similarity *)

(** The loop over [ic_roster1]; the total does not depend on the order in
    which the keys are visited. *)
Definition ic_shared_loop (ic_roster1 ic_roster2 : gmap Z Z) : Z :=
  map_fold (λ ic c1 ic_shared,
    match ic_roster2 !! ic with
    | Some c2 => if decide (c1 < c2) then ic_shared + c1 else ic_shared + c2
    | None => ic_shared
    end) 0 ic_roster1.

Definition pm_similarity (pset1 pset2 : gset pitch)
    (ic_roster1 ic_roster2 : option (gmap Z Z)) : Z * Z :=
  let cint := Z.of_nat (size (pset1 ∩ pset2)) in
  let ic_roster1 := default (p_ic_roster pset1) ic_roster1 in
  let ic_roster2 := default (p_ic_roster pset2) ic_roster2 in
  (cint, ic_shared_loop ic_roster1 ic_roster2).

(** ** subsets *)

(** Python's [<] on lists of pitch elements: the first position where the
    elements differ decides, and a proper prefix is smaller. *)
Fixpoint pitches_lt (a b : list pitch) : bool :=
  match a, b with
  | [], [] => false
  | [], _ :: _ => true
  | _ :: _, [] => false
  | x :: a', y :: b' =>
      if decide (x = y) then pitches_lt a' b' else bool_decide (p x < p y)
  end.

(** [sub.sort()]: stable, so [a] stays before [b] unless [b < a]. *)
Definition pitches_le (a b : list pitch) : Prop := pitches_lt b a = false.

Global Instance pitches_le_dec : RelDecision pitches_le.
Proof. intros a b. unfold pitches_le. apply _. Defined.

Definition sort_subs (sub : list (list pitch)) : list (list pitch) :=
  merge_sort pitches_le sub.

(** The inner loop of [subsets] for one [index]. *)
Definition subset_at (t : pytype) (pseg : list pitch) (len : nat) (index : Z)
  : result (list pitch) :=
  for_in (seq 0 len)
    (λ row i,
       if decide (Z.land index (Z.shiftl 1 (Z.of_nat i)) = 0) then mret row
       else y ← py_construct t (p (pseg !!! i)); mret (row ++ [y]))
    [].

Definition subsets_loop (t : pytype) (pset : gset pitch) : result (list (list pitch)) :=
  let total := (2 ^ size pset)%nat in
  let pseg := sorted_pseg pset in
  sub ← for_in (seq 0 total)
    (λ sub index,
       row ← subset_at t pseg (size pset) (Z.of_nat index); mret (sub ++ [row]))
    [];
  mret (sort_subs sub).

Definition subsets (pset : gset pitch) : result (list (list pitch)) :=
  t ← type_iter_next pset;
  subsets_loop t pset.

(** ** transpose *)

Definition transpose_loop (t : pytype) (pset : gset pitch) (n : Z)
  : result (gset pitch) :=
  for_in (elements pset)
    (λ pset2 x, y ← py_construct t (p x + n); mret ({[ y ]} ∪ pset2)) ∅.

Definition transpose (pset : gset pitch) (n : Z) : result (gset pitch) :=
  t ← type_iter_next pset;
  transpose_loop t pset n.

(** ** p_set_class *)

(** [for i in range(1, len(pseg)): intlist.append(pseg[i].p - pseg[i - 1].p)] *)
Definition set_class_intlist (pseg : list pitch) : list Z :=
  (λ i, p (pseg !!! i) - p (pseg !!! (i - 1)%nat)) <$> seq 1 (length pseg - 1).

Definition p_set_class (pset : gset pitch) : list Z :=
  set_class_intlist (sorted_pseg pset).

(** ** transform *)

(** Modelled from the spec: the class [transformations.UTO], which is not
    part of the sources, is a pair (offset, multiplier); [transformation[0]]
    is the offset and [transformation[1]] the multiplier. *)
Definition UTO : Type := Z * Z.

Definition transform (pset : gset pitch) (transformation : UTO) : gset pitch :=
  foldl (λ pset2 x,
           {[ mkPitch Pitch12 (p x * transformation.2 + transformation.1) ]}
           ∪ pset2)
    ∅ (elements pset).

(** ** util.py *)

Module Util.

Inductive exn : Set :=
  | ZeroDivisionError
  | IndexError.

Inductive result (A : Type) : Type :=
  | Ok (a : A)
  | Raise (e : exn).
Arguments Ok {A} a.
Arguments Raise {A} e.

Global Instance result_ret : MRet result := λ A a, Ok a.

Global Instance result_bind : MBind result := λ A B k c,
  match c with
  | Ok a => k a
  | Raise e => Raise e
  end.

(** [a % b] *)
Definition py_mod (a b : Z) : result Z :=
  if decide (b = 0) then Raise ZeroDivisionError else Ok (a `mod` b).

(** [a // b] *)
Definition py_floordiv (a b : Z) : result Z :=
  if decide (b = 0) then Raise ZeroDivisionError else Ok (a `div` b).

(** The position that the index [i] names in a list of [len] items: a
    negative index counts from the end. *)
Definition py_position (len : nat) (i : Z) : result nat :=
  if decide (0 ≤ i < Z.of_nat len) then Ok (Z.to_nat i)
  else if decide (- Z.of_nat len ≤ i < 0) then Ok (Z.to_nat (Z.of_nat len + i))
  else Raise IndexError.

(** [l[i]] *)
Definition py_getitem (l : list Z) (i : Z) : result Z :=
  k ← py_position (length l) i;
  match l !! k with
  | Some x => Ok x
  | None => Raise IndexError
  end.

(** [l[i] = v] *)
Definition py_setitem (l : list Z) (i : Z) (v : Z) : result (list Z) :=
  k ← py_position (length l) i;
  mret (<[k := v]> l).

(** [for x in l: s = body(s, x)] where the body can raise *)
Fixpoint for_in {A S : Type} (l : list A) (body : S → A → result S) (s : S)
  : result S :=
  match l with
  | [] => Ok s
  | x :: l' => s' ← body s x; for_in l' body s'
  end.

Definition map_to_chromatic (scale_map sequence : list Z) : result (list Z) :=
  let CMOD := 12 in
  let smod := Z.of_nat (length scale_map) in
  for_in sequence
    (λ sequence2 p,
       r ← py_mod p smod;
       pc ← py_mod (r + smod) smod;
       q ← py_floordiv p smod;
       x ← py_getitem scale_map pc;
       let p2 := q * CMOD + x in
       mret (sequence2 ++ [p2]))
    [].

(** One pass through the body of the [while] loop of [norgard]; the result
    is the list, [i] and [m] at the end of the pass. *)
Definition norgard_body (n : Z) (n_list : list Z) (i : Z)
  : result (list Z * Z * Z) :=
  let m := 2 * i in
  n_list ← (if decide (m < n)
            then x ← py_getitem n_list i; py_setitem n_list m (- x)
            else mret n_list);
  let m := m + 1 in
  n_list ← (if decide (m < n)
            then x ← py_getitem n_list i; py_setitem n_list m (x + 1)
            else mret n_list);
  mret (n_list, i + 1, m).

(** [while m < n: ...], for at most [fuel] passes; [None] when the passes
    run out before the loop ends. *)
Fixpoint norgard_while (fuel : nat) (n : Z) (n_list : list Z) (i m : Z)
  : option (result (list Z)) :=
  if decide (m < n) then
    match fuel with
    | O => None
    | S fuel' =>
        match norgard_body n n_list i with
        | Ok (n_list', i', m') => norgard_while fuel' n n_list' i' m'
        | Raise e => Some (Raise e)
        end
    end
  else Some (Ok n_list).

Definition norgard (n : Z) : option (result (list Z)) :=
  let n_list := replicate (Z.to_nat n) 0 in
  norgard_while (Z.to_nat n + 1) n n_list 0 0.

End Util.

(** ** Auxiliary notions for the proofs *)

(** An n×n grid. *)
Definition well_shaped (n : nat) (mx : list (list Z)) : Prop :=
  length mx = n ∧ Forall (λ row, length row = n) mx.

(** The interval between the elements at positions [i] and [j]. *)
Definition diff_at (pseg : list pitch) (i j : nat) : Z :=
  Z.abs (p (pseg !!! i) - p (pseg !!! j)).

(** The integer has a nearest float64 in range. *)
Definition float64_fits (z : Z) : Prop := Z.abs (float64_round z) < 2 ^ 1024.

Definition grid_fits (pseg : list pitch) (n : nat) : Prop :=
  Forall (λ i, Forall (λ j, float64_fits (diff_at pseg i j)) (seq 0 n)) (seq 0 n).

(** The grid with every cell written, all conversions having succeeded. *)
Definition filled (uninit : nat → nat → Z) (pseg : list pitch) (n : nat)
  : list (list Z) :=
  foldl (λ mx i,
    foldl (λ mx j, mx_put mx i j (float64_round (diff_at pseg i j)))
      mx (seq 0 n))
    (numpy_empty uninit n n) (seq 0 n).

(** Every key of the roster was counted for some pair [j < i]. *)
Definition keys_from_pairs (pseg : list pitch) (len : nat) (roster : gmap Z Z)
  : Prop :=
  ∀ k, is_Some (roster !! k) →
    ∃ i j, (j < i < len)%nat ∧ k = Z.abs (p (pseg !!! i) - p (pseg !!! j)).

(** What one entry [(ic, c1)] of the first roster adds to [ic_shared]. *)
Definition shared_at (ic_roster2 : gmap Z Z) (ic c1 : Z) : Z :=
  match ic_roster2 !! ic with
  | Some c2 => if decide (c1 < c2) then c1 else c2
  | None => 0
  end.

(** The elements of [pseg] at the positions whose bit is set in [index],
    rebuilt as elements of the pitch class [v]. *)
Definition masked (v : variant) (pseg : list pitch) (len : nat) (index : Z)
  : list pitch :=
  (λ i, mkPitch v (p (pseg !!! i)))
    <$> filter (λ i, Z.testbit index (Z.of_nat i) = true) (seq 0 len).

(** The differences of neighbours in a list of values. *)
Fixpoint diffs (l : list Z) : list Z :=
  match l with
  | a :: (b :: _) as l' => (b - a) :: diffs l'
  | _ => []
  end.

(** The sum of a list of integers. *)
Definition sumZ (l : list Z) : Z := foldr Z.add 0 l.

(** All elements of the pset are of the pitch class [v]. *)
Definition all_of_kind (v : variant) (pset : gset pitch) : Prop :=
  ∀ x, x ∈ pset → kind x = v.

(** What [map_to_chromatic] makes of one item [p] for a non-empty scale. *)
Definition chromatic_of (scale_map : list Z) (p : Z) : Z :=
  let smod := Z.of_nat (length scale_map) in
  p `div` smod * 12 + scale_map !!! Z.to_nat (p `mod` smod).

(** The sequence the docstring of [norgard] names (OEIS A004718), by its
    recurrence: a(0) = 0, a(2k) = -a(k), a(2k+1) = a(k) + 1. *)
Fixpoint infinity_pos (q : positive) : Z :=
  match q with
  | xH => 1
  | xO q' => - infinity_pos q'
  | xI q' => infinity_pos q' + 1
  end.

Definition infinity_series (k : Z) : Z :=
  match k with
  | Zpos q => infinity_pos q
  | _ => 0
  end.

(** What holds of the list and of [i] each time [norgard] tests its loop
    condition: the entries below 2*i (and entry 0) are terms of the series. *)
Definition norgard_inv (n : Z) (n_list : list Z) (i : Z) : Prop :=
  length n_list = Z.to_nat n ∧ 0 ≤ i ∧
  ∀ k, 0 ≤ k < n → k < Z.max 1 (2 * i) →
    n_list !! Z.to_nat k = Some (infinity_series k).

(** The value of [m] when the loop condition is tested with this [i]. *)
Definition norgard_head (i m : Z) : Prop :=
  (i = 0 ∧ m = 0) ∨ (1 ≤ i ∧ m = 2 * i - 1).

(** Closed decidable facts about concrete psets are settled by evaluation. *)
Ltac by_evaluation :=
  lazymatch goal with
  | |- ?P => apply (bool_decide_unpack P); vm_compute; exact I
  end.

(** * Properties *)

(** ** The canonical ordering *)

Global Instance pitch_le_total : Total pitch_le.
Proof. intros x y. unfold pitch_le. lia. Qed.

Global Instance pitch_le_trans : Transitive pitch_le.
Proof. intros x y z. unfold pitch_le. lia. Qed.

Lemma sorted_pseg_perm pset : sorted_pseg pset ≡ₚ elements pset.
Proof. apply merge_sort_Permutation. Qed.

Lemma sorted_pseg_sorted pset : StronglySorted pitch_le (sorted_pseg pset).
Proof. apply StronglySorted_merge_sort; apply _. Qed.

Lemma sorted_pseg_length pset : length (sorted_pseg pset) = size pset.
Proof. by rewrite sorted_pseg_perm. Qed.

Lemma sorted_pseg_NoDup pset : NoDup (sorted_pseg pset).
Proof. rewrite sorted_pseg_perm. apply NoDup_elements. Qed.

Lemma elem_of_sorted_pseg pset x : x ∈ sorted_pseg pset ↔ x ∈ pset.
Proof. by rewrite sorted_pseg_perm, elem_of_elements. Qed.

Lemma sorted_pseg_lookup pset i :
  (i < size pset)%nat →
  ∃ x, sorted_pseg pset !! i = Some x ∧ sorted_pseg pset !!! i = x ∧ x ∈ pset.
Proof.
  intros Hi. rewrite <- sorted_pseg_length in Hi.
  destruct (lookup_lt_is_Some_2 _ _ Hi) as [x Hx].
  exists x. split; [done|]. split.
  - by apply list_lookup_total_correct.
  - apply elem_of_sorted_pseg. by eapply list_elem_of_lookup_2.
Qed.

(** ** Loops as folds *)

Lemma foldl_invariant {S A} (P : S → Prop) (f : S → A → S) (l : list A) s :
  P s → (∀ s x, x ∈ l → P s → P (f s x)) → P (foldl f s l).
Proof.
  revert s. induction l as [|x l IH]; intros s Hs Hf; simpl; [done|].
  apply IH.
  - apply Hf; [left | done].
  - intros s' y Hy. apply Hf. by right.
Qed.

(** ** Conversion to float64 *)

Lemma float64_round_nonneg_exact z :
  0 ≤ z ≤ 2 ^ 53 → float64_round_nonneg z = z.
Proof.
  intros Hz. unfold float64_round_nonneg. case_decide; [done|].
  assert (z = 2 ^ 53) as -> by lia. by vm_compute.
Qed.

Lemma float64_round_nonneg_bounds z :
  0 ≤ z → 0 ≤ float64_round_nonneg z ≤ 2 * z.
Proof.
  intros Hz. unfold float64_round_nonneg. case_decide as Hbig; [lia|].
  assert (0 < z) as Hpos by lia.
  assert (53 ≤ Z.log2 z) as Hlog by (by apply Z.log2_le_pow2; [|lia]).
  pose proof (Z.log2_spec z Hpos) as [Hlow _].
  assert (2 ^ (Z.log2 z - 52) ≤ 2 ^ Z.log2 z) as Hle
    by (apply Z.pow_le_mono_r; lia).
  assert (0 < 2 ^ (Z.log2 z - 52)) as Hpow by (apply Z.pow_pos_nonneg; lia).
  assert (2 ^ (Z.log2 z - 52) ≠ 0) as Hne0 by lia.
  pose proof (Z.div_mod z _ Hne0) as Hdm. clear Hne0.
  pose proof (Z.mod_pos_bound z _ Hpow) as Hr.
  assert (0 ≤ z `div` 2 ^ (Z.log2 z - 52)) as Hq by (apply Z.div_pos; lia).
  cbv zeta.
  set (half := 2 ^ (Z.log2 z - 52 - 1)).
  set (P := 2 ^ (Z.log2 z - 52)) in *.
  set (q := z `div` P) in *. set (r := z `mod` P) in *.
  clearbody half r q. clearbody P.
  repeat case_decide; try destruct (Z.even q); nia.
Qed.

Lemma float64_round_nonneg_eq z : 0 ≤ z → float64_round z = float64_round_nonneg z.
Proof.
  intros Hz. unfold float64_round. rewrite Z.abs_eq by done.
  destruct (decide (z = 0)) as [->|Hne]; [done|].
  rewrite Z.sgn_pos by lia. lia.
Qed.

Lemma float64_round_exact z : 0 ≤ z ≤ 2 ^ 53 → float64_round z = z.
Proof.
  intros Hz. rewrite float64_round_nonneg_eq by lia.
  by apply float64_round_nonneg_exact.
Qed.

Lemma float64_round_bounds z : 0 ≤ z → 0 ≤ float64_round z ≤ 2 * z.
Proof.
  intros Hz. rewrite float64_round_nonneg_eq by done.
  by apply float64_round_nonneg_bounds.
Qed.

Lemma float64_fits_below z : 0 ≤ z < 2 ^ 1023 → float64_fits z.
Proof.
  intros Hz. unfold float64_fits.
  pose proof (float64_round_bounds z ltac:(lia)).
  rewrite Z.abs_eq by lia.
  change (2 ^ 1024) with (2 * 2 ^ 1023). lia.
Qed.

Lemma float64_of_int_fits z :
  float64_of_int z
  = if decide (float64_fits z) then Ok (float64_round z) else Raise OverflowError.
Proof. done. Qed.

(** ** Loops whose body can raise *)

Lemma for_in_guarded {A S} (fits : A → Prop) `{∀ x, Decision (fits x)}
    (body : S → A → result S) (step : S → A → S) (e : exn) l s :
  (∀ s x, x ∈ l →
     body s x = if decide (fits x) then Ok (step s x) else Raise e) →
  for_in l body s
  = if decide (Forall fits l) then Ok (foldl step s l) else Raise e.
Proof.
  revert s. induction l as [|x l IH]; intros s Hbody.
  - by rewrite decide_True by constructor.
  - cbn [for_in foldl]. rewrite Hbody by left.
    destruct (decide (fits x)) as [Hx|Hx]; cbn [mbind result_bind].
    + rewrite IH by (intros s' y Hy; apply Hbody; by right).
      destruct (decide (Forall fits l)) as [Hl|Hl].
      * by rewrite decide_True by (by constructor).
      * rewrite decide_False; [done|]. by intros [_ ?]%Forall_cons.
    + rewrite decide_False; [done|]. by intros [? _]%Forall_cons.
Qed.

(** ** The interval-class matrix *)

Section MatrixFacts.
Variable uninit : nat → nat → Z.

Lemma cell_Some_lt n mx i j v :
  well_shaped n mx → cell mx i j = Some v → (i < n)%nat ∧ (j < n)%nat.
Proof.
  intros [Hlen Hrows]. unfold cell. intros Hc.
  destruct (mx !! i) as [row|] eqn:Hrow; simpl in Hc; [|done].
  split.
  - rewrite <- Hlen. by eapply lookup_lt_Some.
  - rewrite Forall_lookup in Hrows. rewrite <- (Hrows _ _ Hrow).
    by eapply lookup_lt_Some.
Qed.

Lemma cell_numpy_empty rows cols i j :
  (i < rows)%nat → (j < cols)%nat →
  cell (numpy_empty uninit rows cols) i j = Some (uninit i j).
Proof.
  intros Hi Hj. unfold cell, numpy_empty.
  rewrite list_lookup_fmap, lookup_seq_lt by done. simpl.
  by rewrite list_lookup_fmap, lookup_seq_lt.
Qed.

Lemma well_shaped_numpy_empty n : well_shaped n (numpy_empty uninit n n).
Proof.
  split.
  - unfold numpy_empty. by rewrite length_fmap, length_seq.
  - unfold numpy_empty. apply Forall_fmap, Forall_forall. intros i _. simpl.
    by rewrite length_fmap, length_seq.
Qed.

Lemma well_shaped_mx_put n mx i j x :
  well_shaped n mx → well_shaped n (mx_put mx i j x).
Proof.
  intros [Hlen Hrows]. split.
  - unfold mx_put. by rewrite length_alter.
  - unfold mx_put. apply Forall_lookup. intros k row.
    rewrite Forall_lookup in Hrows.
    destruct (decide (i = k)) as [->|Hne].
    + rewrite list_lookup_alter_eq.
      destruct (mx !! k) as [row'|] eqn:Hk; simpl; [|done].
      intros [= <-]. rewrite length_insert. by eapply Hrows.
    + rewrite list_lookup_alter_ne by done. apply Hrows.
Qed.

Lemma cell_mx_put mx i j x i' j' :
  cell (mx_put mx i j x) i' j' =
    if decide (i' = i ∧ j' = j) then const x <$> cell mx i j
    else cell mx i' j'.
Proof.
  unfold cell, mx_put.
  destruct (decide (i = i')) as [<-|Hne].
  - rewrite list_lookup_alter_eq.
    destruct (mx !! i) as [row|] eqn:Hrow; simpl.
    + destruct (decide (j = j')) as [<-|Hnej].
      * rewrite decide_True by done.
        destruct (row !! j) as [w|] eqn:Hw; simpl.
        -- apply list_lookup_insert_eq. by eapply lookup_lt_Some.
        -- rewrite list_insert_ge; [done|]. by apply lookup_ge_None.
      * rewrite decide_False by (intros [? ?]; done).
        by rewrite list_lookup_insert_ne.
    + by case_decide.
  - rewrite list_lookup_alter_ne by done.
    by rewrite decide_False by (intros [? ?]; done).
Qed.

(** One row of the grid, filled cell by cell. *)
Lemma cell_fill_row (g : nat → Z) mx i js i' j' :
  cell (foldl (λ mx j, mx_put mx i j (g j)) mx js) i' j' =
    if decide (i' = i ∧ j' ∈ js) then const (g j') <$> cell mx i' j'
    else cell mx i' j'.
Proof.
  revert mx. induction js as [|j js IH]; intros mx; cbn [foldl].
  - rewrite decide_False; [done|]. intros [_ H]. by apply elem_of_nil in H.
  - rewrite IH, !cell_mx_put.
    destruct (decide (i' = i)) as [->|Hi].
    + destruct (decide (j' = j)) as [->|Hj].
      * rewrite (decide_True (P := i = i ∧ j = j)) by done.
        rewrite (decide_True (P := i = i ∧ j ∈ j :: js))
          by (split; [done | left]).
        case_decide; by destruct (cell mx i j).
      * rewrite (decide_False (P := i = i ∧ j' = j)) by (intros [? ?]; done).
        destruct (decide (j' ∈ js)) as [Hin|Hnin].
        -- rewrite decide_True by done.
           by rewrite decide_True by (split; [done | by right]).
        -- rewrite decide_False by (intros [? ?]; done).
           rewrite decide_False; [done|].
           intros [_ [?|?]%elem_of_cons]; done.
    + by rewrite !decide_False by (intros [? ?]; done).
Qed.

(** The whole grid, filled row by row. *)
Lemma cell_fill_grid (f : nat → nat → Z) mx rows js i' j' :
  cell (foldl (λ mx i, foldl (λ mx j, mx_put mx i j (f i j)) mx js)
          mx rows) i' j' =
    if decide (i' ∈ rows ∧ j' ∈ js) then const (f i' j') <$> cell mx i' j'
    else cell mx i' j'.
Proof.
  revert mx. induction rows as [|i rows IH]; intros mx; cbn [foldl].
  - rewrite decide_False; [done|]. intros [H _]. by apply elem_of_nil in H.
  - rewrite IH, !(cell_fill_row (f i)).
    destruct (decide (j' ∈ js)) as [Hj|Hj].
    + destruct (decide (i' = i)) as [->|Hi].
      * rewrite (decide_True (P := i = i ∧ j' ∈ js)) by done.
        rewrite (decide_True (P := i ∈ i :: rows ∧ j' ∈ js))
          by (split; [left | done]).
        case_decide; by destruct (cell mx i j').
      * rewrite (decide_False (P := i' = i ∧ j' ∈ js)) by (intros [? ?]; done).
        destruct (decide (i' ∈ rows)) as [Hin|Hnin].
        -- rewrite decide_True by done.
           by rewrite decide_True by (split; [by right | done]).
        -- rewrite decide_False by (intros [? ?]; done).
           rewrite decide_False; [done|].
           intros [[?|?]%elem_of_cons _]; done.
    + by rewrite !decide_False by (intros [? ?]; done).
Qed.

Lemma filled_well_shaped pseg n : well_shaped n (filled uninit pseg n).
Proof.
  unfold filled. apply (foldl_invariant (well_shaped n)).
  - apply well_shaped_numpy_empty.
  - intros mx i _ Hmx. apply (foldl_invariant (well_shaped n)).
    + done.
    + intros mx' j _ Hmx'. by apply well_shaped_mx_put.
Qed.

Lemma filled_cell pseg n i j :
  (i < n)%nat → (j < n)%nat →
  cell (filled uninit pseg n) i j = Some (float64_round (diff_at pseg i j)).
Proof.
  intros Hi Hj. unfold filled.
  rewrite (cell_fill_grid (λ i j, float64_round (diff_at pseg i j))).
  rewrite decide_True by (rewrite !elem_of_seq; lia).
  by rewrite cell_numpy_empty.
Qed.

(** What [p_ic_matrix] returns: the filled grid when every interval has a
    float64 in range, and [OverflowError] otherwise. *)
Lemma p_ic_matrix_result pset :
  p_ic_matrix uninit pset
  = if decide (grid_fits (sorted_pseg pset) (size pset))
    then Ok (filled uninit (sorted_pseg pset) (size pset))
    else Raise OverflowError.
Proof.
  unfold p_ic_matrix, grid_fits, filled.
  apply (for_in_guarded
    (λ i, Forall (λ j, float64_fits (diff_at (sorted_pseg pset) i j))
            (seq 0 (size pset)))).
  intros mx i _.
  apply (for_in_guarded (λ j, float64_fits (diff_at (sorted_pseg pset) i j))).
  intros mx' j _. unfold mx_store. rewrite float64_of_int_fits.
  fold (diff_at (sorted_pseg pset) i j). by case_decide.
Qed.
End MatrixFacts.

Lemma grid_fits_iff (pset : gset pitch) :
  grid_fits (sorted_pseg pset) (size pset) ↔
  ∀ x y, x ∈ pset → y ∈ pset → float64_fits (Z.abs (p x - p y)).
Proof.
  unfold grid_fits. split.
  - intros Hall x y Hx%elem_of_sorted_pseg Hy%elem_of_sorted_pseg.
    apply list_elem_of_lookup_1 in Hx as [i Hi], Hy as [j Hj].
    pose proof (lookup_lt_Some _ _ _ Hi) as Hilt.
    pose proof (lookup_lt_Some _ _ _ Hj) as Hjlt.
    rewrite sorted_pseg_length in Hilt, Hjlt.
    rewrite Forall_forall in Hall.
    specialize (Hall i ltac:(apply elem_of_seq; lia)).
    rewrite Forall_forall in Hall.
    specialize (Hall j ltac:(apply elem_of_seq; lia)).
    unfold diff_at in Hall.
    by rewrite (list_lookup_total_correct _ _ _ Hi),
      (list_lookup_total_correct _ _ _ Hj) in Hall.
  - intros Hfit. apply Forall_forall. intros i Hi%elem_of_seq.
    apply Forall_forall. intros j Hj%elem_of_seq.
    destruct (sorted_pseg_lookup pset i) as (x & _ & Hx & Hxin); [lia|].
    destruct (sorted_pseg_lookup pset j) as (y & _ & Hy & Hyin); [lia|].
    unfold diff_at. rewrite Hx, Hy. by apply Hfit.
Qed.

Lemma grid_fits_span (pset : gset pitch) :
  (∀ x y, x ∈ pset → y ∈ pset → Z.abs (p x - p y) < 2 ^ 1023) →
  grid_fits (sorted_pseg pset) (size pset).
Proof.
  intros Hspan. apply grid_fits_iff. intros x y Hx Hy.
  apply float64_fits_below. specialize (Hspan x y Hx Hy). lia.
Qed.

(** C1, as amended.  For a non-empty pset, [p_ic_matrix] returns a grid when
    every interval between two elements has a nearest float64 in range, and
    raises [OverflowError] otherwise.  The grid is an n×n grid over the
    ascending-sorted elements: cell [i][j] is the float64 nearest to the
    absolute difference of the values of elements i and j, and is that
    difference itself when the difference is at most 2^53; it equals cell
    [j][i], the diagonal is zero and no entry is negative. *)
Theorem p_ic_matrix_symmetric_zero_diag uninit (pset : gset pitch) :
  pset ≠ ∅ →
  let pseg := sorted_pseg pset in
  let n := size pset in
  ((∀ x y, x ∈ pset → y ∈ pset → float64_fits (Z.abs (p x - p y))) →
   ∃ mx, p_ic_matrix uninit pset = Ok mx ∧
     pseg ≡ₚ elements pset ∧ StronglySorted pitch_le pseg ∧
     length mx = n ∧ Forall (λ row, length row = n) mx ∧
     ∀ i j, (i < n)%nat → (j < n)%nat →
       ∃ x y, pseg !! i = Some x ∧ pseg !! j = Some y ∧
         cell mx i j = Some (float64_round (Z.abs (p x - p y))) ∧
         (Z.abs (p x - p y) ≤ 2 ^ 53 → cell mx i j = Some (Z.abs (p x - p y))) ∧
         cell mx j i = cell mx i j ∧
         cell mx i i = Some 0 ∧
         0 ≤ float64_round (Z.abs (p x - p y))) ∧
  (¬ (∀ x y, x ∈ pset → y ∈ pset → float64_fits (Z.abs (p x - p y))) →
   p_ic_matrix uninit pset = Raise OverflowError).
Proof.
  intros _ pseg n. split.
  - intros Hfit. exists (filled uninit pseg n). split.
    { rewrite p_ic_matrix_result. by rewrite decide_True by by apply grid_fits_iff. }
    split; [apply sorted_pseg_perm|].
    split; [apply sorted_pseg_sorted|].
    destruct (filled_well_shaped uninit pseg n) as [Hlen Hrows].
    split; [done|]. split; [done|].
    intros i j Hi Hj.
    destruct (sorted_pseg_lookup pset i Hi) as (x & Hx & Hxt & _).
    destruct (sorted_pseg_lookup pset j Hj) as (y & Hy & Hyt & _).
    exists x, y. subst pseg n.
    rewrite !filled_cell by done. unfold diff_at. rewrite Hxt, Hyt.
    split; [done|]. split; [done|]. split; [done|]. split; [|split; [|split]].
    + intros Hsmall. f_equal. apply float64_round_exact. lia.
    + do 2 f_equal. lia.
    + rewrite Z.sub_diag. done.
    + apply float64_round_bounds. lia.
  - intros Hnot. rewrite p_ic_matrix_result.
    by rewrite decide_False by (by rewrite grid_fits_iff).
Qed.

Lemma p_ic_matrix_symmetric_zero_diag_witness :
  let pset : gset pitch := {[ pc12 0; pc12 1; pc12 4 ]} in
  pset ≠ ∅ ∧
  ∃ mx, p_ic_matrix (λ _ _, 99) pset = Ok mx ∧ length mx = 3%nat ∧
    ∀ i j, (i < 3)%nat → (j < 3)%nat →
      cell mx j i = cell mx i j ∧ cell mx i i = Some 0.
Proof.
  intros pset.
  assert (Hne : pset ≠ ∅) by by_evaluation.
  assert (Hfit : ∀ x y, x ∈ pset → y ∈ pset → float64_fits (Z.abs (p x - p y))).
  { intros x y Hx Hy. revert y Hy. revert x Hx. by_evaluation. }
  split; [exact Hne|].
  destruct (p_ic_matrix_symmetric_zero_diag (λ _ _, 99) pset Hne) as [Hret _].
  destruct (Hret Hfit) as (mx & Hmx & _ & _ & Hlen & _ & Hcells).
  exists mx. split; [exact Hmx|]. split; [exact Hlen|].
  intros i j Hi Hj.
  destruct (Hcells i j Hi Hj) as (x & y & _ & _ & _ & _ & Hsym & Hdiag & _).
  split; [exact Hsym | exact Hdiag].
Defined.

(** C1, as stated, fails: for the pset {0, 2^53 + 1} the grid is returned,
    and its cell [0][1] holds 2^53, not the difference 2^53 + 1 of the two
    values; for the pset {0, 2^1024} no grid is returned. *)
Lemma p_ic_matrix_cell_not_exact :
  let pset : gset pitch := {[ mkPitch Pitch12 0; mkPitch Pitch12 (2 ^ 53 + 1) ]} in
  pset ≠ ∅ ∧
  sorted_pseg pset = [mkPitch Pitch12 0; mkPitch Pitch12 (2 ^ 53 + 1)] ∧
  (∃ mx, p_ic_matrix (λ _ _, 0) pset = Ok mx ∧ cell mx 0 1 = Some (2 ^ 53)) ∧
  2 ^ 53 ≠ Z.abs (0 - (2 ^ 53 + 1)) ∧
  p_ic_matrix (λ _ _, 0) {[ mkPitch Pitch12 0; mkPitch Pitch12 (2 ^ 1024) ]}
  = Raise OverflowError.
Proof.
  intros pset. split; [by_evaluation|]. split; [by vm_compute|].
  split; [|split; [by vm_compute | by vm_compute]].
  eexists. split; by vm_compute.
Qed.

(** ** The interval-class roster *)

Lemma roster_total_empty : roster_total ∅ = 0.
Proof. apply map_fold_empty. Qed.

Lemma roster_total_insert_fresh (m : gmap Z Z) k v :
  m !! k = None → roster_total (<[k := v]> m) = roster_total m + v.
Proof.
  intros Hk. unfold roster_total.
  rewrite map_fold_insert_L; [done | | done].
  intros. lia.
Qed.

Lemma roster_total_insert (m : gmap Z Z) k v :
  roster_total (<[k := v]> m) = roster_total (delete k m) + v.
Proof.
  rewrite <- insert_delete_eq.
  apply roster_total_insert_fresh, lookup_delete_eq.
Qed.

Lemma roster_total_lookup (m : gmap Z Z) k c :
  m !! k = Some c → roster_total m = roster_total (delete k m) + c.
Proof.
  intros Hk. rewrite <- (insert_id m k c) at 1 by done.
  apply roster_total_insert.
Qed.

Lemma roster_total_count roster interval :
  roster_total (roster_count roster interval) = roster_total roster + 1.
Proof.
  unfold roster_count. destruct (roster !! interval) as [c|] eqn:Hc.
  - rewrite roster_total_insert, (roster_total_lookup _ _ _ Hc). lia.
  - by apply roster_total_insert_fresh.
Qed.

Lemma range_down_S k : range_down (S k) = k :: range_down k.
Proof. unfold range_down. by rewrite seq_S, reverse_snoc. Qed.

Lemma elem_of_range_down k i : i ∈ range_down k ↔ (i < k)%nat.
Proof. unfold range_down. rewrite elem_of_reverse, elem_of_seq. lia. Qed.

Lemma length_range_down k : length (range_down k) = k.
Proof. unfold range_down. by rewrite length_reverse, length_seq. Qed.

(** The inner loop counts one interval per [j]. *)
Lemma roster_total_inner (g : nat → Z) js roster :
  roster_total (foldl (λ roster j, roster_count roster (g j)) roster js)
  = roster_total roster + Z.of_nat (length js).
Proof.
  revert roster. induction js as [|j js IH]; intros roster; cbn [foldl length].
  - lia.
  - rewrite IH, roster_total_count. lia.
Qed.

Lemma pairs_step (k : Z) : (k + 1) * (k + 1 - 1) / 2 = k + k * (k - 1) / 2.
Proof.
  replace ((k + 1) * (k + 1 - 1)) with (k * 2 + k * (k - 1)) by lia.
  by rewrite Z.div_add_l.
Qed.

Lemma roster_total_loop pseg roster len :
  roster_total (roster_loop pseg roster len)
  = roster_total roster + Z.of_nat len * (Z.of_nat len - 1) / 2.
Proof.
  unfold roster_loop. revert roster.
  induction len as [|len IH]; intros roster.
  - change (range_down 0) with (@nil nat). cbn [foldl].
    change (Z.of_nat 0 * (Z.of_nat 0 - 1) / 2) with 0. lia.
  - rewrite range_down_S. cbn [foldl]. rewrite IH.
    rewrite (roster_total_inner (λ j, Z.abs (p (pseg !!! len) - p (pseg !!! j)))).
    rewrite length_range_down, Nat2Z.inj_succ, <- Z.add_1_r, pairs_step. lia.
Qed.

Lemma keys_from_pairs_count pseg len roster i j :
  (j < i < len)%nat →
  keys_from_pairs pseg len roster →
  keys_from_pairs pseg len
    (roster_count roster (Z.abs (p (pseg !!! i) - p (pseg !!! j)))).
Proof.
  intros Hij Hinv k. unfold roster_count.
  destruct (roster !! _) as [c|];
    (destruct (decide (Z.abs (p (pseg !!! i) - p (pseg !!! j)) = k)) as [<-|Hne];
      [intros _; by exists i, j | rewrite lookup_insert_ne by done; apply Hinv]).
Qed.

Lemma keys_from_pairs_loop pseg len :
  keys_from_pairs pseg len (roster_loop pseg ∅ len).
Proof.
  unfold roster_loop. apply (foldl_invariant (keys_from_pairs pseg len)).
  - intros k. rewrite lookup_empty. by intros [? ?].
  - intros roster i Hi%elem_of_range_down Hinv.
    apply (foldl_invariant (keys_from_pairs pseg len)); [done|].
    intros roster' j Hj%elem_of_range_down Hinv'.
    by apply keys_from_pairs_count.
Qed.

(** C2. For a non-empty pset of n elements the counts of [p_ic_roster] sum
    to n*(n-1)/2, and every key is the absolute difference of the values of
    two distinct elements of the pset. *)
Theorem p_ic_roster_total_and_keys (pset : gset pitch) :
  pset ≠ ∅ →
  let n := Z.of_nat (size pset) in
  roster_total (p_ic_roster pset) = n * (n - 1) / 2 ∧
  ∀ k, k ∈ dom (p_ic_roster pset) →
    ∃ x y, x ∈ pset ∧ y ∈ pset ∧ x ≠ y ∧ k = Z.abs (p x - p y).
Proof.
  intros _ n. unfold p_ic_roster. split.
  - rewrite roster_total_loop, roster_total_empty, sorted_pseg_length.
    subst n. lia.
  - intros k Hk%elem_of_dom.
    destruct (keys_from_pairs_loop _ _ k Hk) as (i & j & Hij & ->).
    rewrite sorted_pseg_length in Hij.
    destruct (sorted_pseg_lookup pset i) as (x & Hx & -> & Hxin); [lia|].
    destruct (sorted_pseg_lookup pset j) as (y & Hy & -> & Hyin); [lia|].
    exists x, y. repeat split; try done.
    intros <-.
    pose proof (NoDup_lookup _ _ _ _ (sorted_pseg_NoDup pset) Hx Hy). lia.
Qed.

Lemma p_ic_roster_total_and_keys_witness :
  let pset : gset pitch := {[ pc12 0; pc12 1; pc12 4 ]} in
  pset ≠ ∅ ∧ roster_total (p_ic_roster pset) = 3.
Proof.
  intros pset.
  assert (Hne : pset ≠ ∅) by by_evaluation.
  split; [exact Hne|].
  exact (proj1 (p_ic_roster_total_and_keys pset Hne)).
Defined.

(** ** Similarity *)

Lemma ic_shared_loop_empty_l r2 : ic_shared_loop ∅ r2 = 0.
Proof. apply map_fold_empty. Qed.

Lemma ic_shared_loop_insert_l (m r2 : gmap Z Z) k c :
  m !! k = None →
  ic_shared_loop (<[k := c]> m) r2 = ic_shared_loop m r2 + shared_at r2 k c.
Proof.
  intros Hk. unfold ic_shared_loop.
  rewrite map_fold_insert_L; [| | done].
  - unfold shared_at. destruct (r2 !! k); [by case_decide | lia].
  - intros j1 j2 z1 z2 y _ _ _.
    destruct (r2 !! j1), (r2 !! j2); repeat case_decide; lia.
Qed.

Lemma ic_shared_loop_empty_r (r1 : gmap Z Z) : ic_shared_loop r1 ∅ = 0.
Proof.
  induction r1 as [|k c m Hk IH] using map_ind.
  - apply ic_shared_loop_empty_l.
  - rewrite ic_shared_loop_insert_l, IH by done.
    unfold shared_at. by rewrite lookup_empty.
Qed.

Lemma ic_shared_loop_insert_r (r m : gmap Z Z) k c :
  m !! k = None →
  ic_shared_loop r (<[k := c]> m) = ic_shared_loop r m + shared_at r k c.
Proof.
  intros Hk. induction r as [|j w r' Hj IH] using map_ind.
  - rewrite !ic_shared_loop_empty_l. unfold shared_at. by rewrite lookup_empty.
  - rewrite !ic_shared_loop_insert_l, IH by done.
    unfold shared_at. destruct (decide (j = k)) as [->|Hne].
    + rewrite !lookup_insert_eq, Hj, Hk. repeat case_decide; lia.
    + rewrite !(lookup_insert_ne _ _ _ _ Hne).
      assert (k ≠ j) as Hne' by done.
      rewrite !(lookup_insert_ne _ _ _ _ Hne'). lia.
Qed.

Lemma ic_shared_loop_comm (r1 r2 : gmap Z Z) :
  ic_shared_loop r1 r2 = ic_shared_loop r2 r1.
Proof.
  induction r1 as [|k c m Hk IH] using map_ind.
  - by rewrite ic_shared_loop_empty_l, ic_shared_loop_empty_r.
  - by rewrite ic_shared_loop_insert_l, ic_shared_loop_insert_r, IH.
Qed.

Lemma ic_shared_loop_part (m r : gmap Z Z) :
  m ⊆ r → ic_shared_loop m r = roster_total m.
Proof.
  induction m as [|k c m Hk IH] using map_ind; intros Hsub.
  - by rewrite ic_shared_loop_empty_l, roster_total_empty.
  - rewrite ic_shared_loop_insert_l, roster_total_insert_fresh by done.
    rewrite IH.
    + unfold shared_at.
      rewrite (lookup_weaken _ _ _ _ (lookup_insert_eq m k c) Hsub).
      case_decide; lia.
    + etrans; [by apply insert_subseteq | done].
Qed.

Lemma ic_shared_loop_self (r : gmap Z Z) : ic_shared_loop r r = roster_total r.
Proof. by apply ic_shared_loop_part. Qed.

(** C9. Without precomputed rosters, [pm_similarity(A, A)] is the pair of
    the cardinality n of A and the number n*(n-1)/2 of unordered pairs. *)
Theorem pm_similarity_self (A : gset pitch) :
  let n := Z.of_nat (size A) in
  pm_similarity A A None None = (n, n * (n - 1) / 2).
Proof.
  intros n. unfold pm_similarity. cbn [default].
  rewrite ic_shared_loop_self. f_equal.
  - subst n. by rewrite (idemp_L (∩)).
  - unfold p_ic_roster.
    rewrite roster_total_loop, roster_total_empty, sorted_pseg_length.
    subst n. lia.
Qed.

(** C10. Without precomputed rosters, [pm_similarity] gives the same pair
    whichever way round the two psets are passed. *)
Theorem pm_similarity_comm (A B : gset pitch) :
  pm_similarity A B None None = pm_similarity B A None None.
Proof.
  unfold pm_similarity. cbn [default]. f_equal.
  - by rewrite (comm_L (∩)).
  - apply ic_shared_loop_comm.
Qed.

(** ** The figured-bass list *)

Lemma fb_sorted_perm n pset p0 :
  fb_sorted n pset p0 ≡ₚ (λ x, (p x - p0) `mod` n) <$> elements pset.
Proof. apply merge_sort_Permutation. Qed.

Lemma fb_sorted_sorted n pset p0 : StronglySorted Z.le (fb_sorted n pset p0).
Proof. apply StronglySorted_merge_sort; apply _. Qed.

Lemma elem_of_fb_sorted n pset p0 r :
  r ∈ fb_sorted n pset p0 ↔ ∃ x, x ∈ pset ∧ r = (p x - p0) `mod` n.
Proof.
  rewrite fb_sorted_perm, list_elem_of_fmap.
  split; intros (x & H1 & H2); exists x.
  - by rewrite <- elem_of_elements.
  - by rewrite elem_of_elements.
Qed.

Lemma modulus_of_pos t : 0 < modulus_of t.
Proof. unfold modulus_of. case_decide; lia. Qed.

Lemma fb_sorted_range n pset p0 r :
  0 < n → r ∈ fb_sorted n pset p0 → 0 ≤ r < n.
Proof.
  intros Hn (x & _ & ->)%elem_of_fb_sorted. by apply Z.mod_pos_bound.
Qed.

Lemma fb_sorted_removed n pset p0 r :
  fb_removed n pset p0 = Some r →
  fb_sorted n pset p0 = r :: fb_intlist n pset p0.
Proof.
  unfold fb_removed, fb_intlist.
  destruct (fb_sorted n pset p0); simpl; congruence.
Qed.

(** The entry removed is the smallest residue. *)
Lemma fb_removed_least n pset p0 r x :
  fb_removed n pset p0 = Some r → x ∈ pset → r ≤ (p x - p0) `mod` n.
Proof.
  intros Hr Hx.
  assert ((p x - p0) `mod` n ∈ fb_sorted n pset p0) as Hin
    by (apply elem_of_fb_sorted; eauto).
  pose proof (fb_sorted_sorted n pset p0) as Hs.
  rewrite (fb_sorted_removed _ _ _ _ Hr) in Hin, Hs.
  apply elem_of_cons in Hin as [->|Hin]; [lia|].
  apply StronglySorted_inv in Hs as [_ Hall].
  rewrite Forall_forall in Hall. by apply Hall.
Qed.

Lemma fb_removed_zero_inv n pset p0 :
  fb_removed n pset p0 = Some 0 → ∃ x, x ∈ pset ∧ (p x - p0) `mod` n = 0.
Proof.
  intros Hr.
  assert (0 ∈ fb_sorted n pset p0) as (x & Hx & H0)%elem_of_fb_sorted.
  { rewrite (fb_sorted_removed _ _ _ _ Hr). left. }
  eauto.
Qed.

(** The list computation of [fb_class] (the loop, the sort and the
    deletion) run on its own with a modulus of 12 or 24 supplied: the entry
    removed is 0 whenever some element of the pset is congruent to p0 modulo
    that modulus; for {0,4,7}, p0 = 0 and modulus 12 the list is [4,7]. *)
Lemma fb_removed_zero t (pset : gset pitch) (p0 : Z) (x : pitch) :
  let n := modulus_of t in
  x ∈ pset → (p x - p0) `mod` n = 0 →
  fb_removed n pset p0 = Some 0 ∧
  fb_sorted n pset p0 = 0 :: fb_intlist n pset p0 ∧
  fb_intlist (modulus_of (TPitch PitchClass12))
    {[ pc12 0; pc12 4; pc12 7 ]} 0 = [4; 7].
Proof.
  intros n Hx H0.
  assert (fb_removed n pset p0 = Some 0) as Hr.
  { destruct (fb_removed n pset p0) as [r|] eqn:Hr.
    - pose proof (fb_removed_least _ _ _ _ _ Hr Hx) as Hle.
      assert (0 ≤ r < n); [|f_equal; lia].
      apply (fb_sorted_range n pset p0); [apply modulus_of_pos|].
      rewrite (fb_sorted_removed _ _ _ _ Hr). left.
    - assert ((p x - p0) `mod` n ∈ fb_sorted n pset p0) as Hin
        by (apply elem_of_fb_sorted; eauto).
      unfold fb_removed in Hr.
      destruct (fb_sorted n pset p0); [by apply elem_of_nil in Hin | done]. }
  split; [done|]. split; [by apply fb_sorted_removed|].
  vm_compute. reflexivity.
Qed.

Lemma fb_removed_zero_witness :
  fb_removed 12 {[ pc12 0; pc12 4; pc12 7 ]} 0 = Some 0 ∧
  fb_sorted 12 {[ pc12 0; pc12 4; pc12 7 ]} 0
    = 0 :: fb_intlist 12 {[ pc12 0; pc12 4; pc12 7 ]} 0.
Proof.
  destruct (fb_removed_zero (TPitch PitchClass12)
              {[ pc12 0; pc12 4; pc12 7 ]} 0 (pc12 0)) as (Hr & Hs & _).
  - vm_compute. reflexivity.
  - vm_compute. reflexivity.
  - split; [exact Hr | exact Hs].
Defined.

(** ** Inferring the element type *)

(** [next] is applied to the set itself, which is not an iterator: the
    expression raises before [iter] and [type] are reached, whatever the set
    holds. *)
Lemma type_iter_next_raises pset : type_iter_next pset = Raise TypeError.
Proof. reflexivity. Qed.

(** The two builtins in the other order do reach the elements: [iter] of a
    non-empty set, then [next], gives one of its elements. *)
Lemma iter_then_next pset :
  pset ≠ ∅ →
  ∃ x, x ∈ pset ∧ py_iter (OSet pset) ≫= py_next = Ok (OPitch x).
Proof.
  intros Hne. simpl. destruct (elements pset) as [|x l] eqn:Hl.
  - by apply elements_empty_inv, leibniz_equiv in Hl.
  - exists x. split; [|done]. apply elem_of_elements. rewrite Hl. left.
Qed.

Lemma fb_class_raises pset p0 : fb_class pset p0 = Raise TypeError.
Proof. reflexivity. Qed.

Lemma invert_raises pset : invert pset = Raise TypeError.
Proof. reflexivity. Qed.

Lemma pcint_class_raises pset : pcint_class pset = Raise TypeError.
Proof. reflexivity. Qed.

Lemma subsets_raises pset : subsets pset = Raise TypeError.
Proof. reflexivity. Qed.

Lemma transpose_raises pset n : transpose pset n = Raise TypeError.
Proof. reflexivity. Qed.

(** ** The loops of transpose and invert, for a pitch class [t] *)

Lemma for_in_ok {A S} (body : S → A → result S) (step : S → A → S) l s :
  (∀ s x, body s x = Ok (step s x)) → for_in l body s = Ok (foldl step s l).
Proof.
  intros Hbody. revert s. induction l as [|x l IH]; intros s; simpl; [done|].
  rewrite Hbody. simpl. apply IH.
Qed.

Lemma foldl_add_all (f : pitch → pitch) l (acc : gset pitch) :
  foldl (λ pset2 x, {[ f x ]} ∪ pset2) acc l = list_to_set (f <$> l) ∪ acc.
Proof.
  revert acc. induction l as [|x l IH]; intros acc; simpl.
  - by rewrite (left_id_L ∅ (∪)).
  - by rewrite IH, (assoc_L (∪)), (comm_L (∪) _ {[ f x ]}).
Qed.

Lemma transpose_loop_pitch v pset n :
  transpose_loop (TPitch v) pset n
  = Ok (set_map (λ x, mkPitch v (p x + n)) pset).
Proof.
  unfold transpose_loop.
  rewrite (for_in_ok _ (λ pset2 x, {[ mkPitch v (p x + n) ]} ∪ pset2)) by done.
  rewrite (foldl_add_all (λ x, mkPitch v (p x + n))).
  by rewrite (right_id_L ∅ (∪)).
Qed.

Lemma invert_loop_pitch v pset :
  invert_loop (TPitch v) pset = Ok (set_map (λ x, mkPitch v (p x * -1)) pset).
Proof.
  unfold invert_loop.
  rewrite (for_in_ok _ (λ pset2 x, {[ mkPitch v (p x * -1) ]} ∪ pset2)) by done.
  rewrite (foldl_add_all (λ x, mkPitch v (p x * -1))).
  by rewrite (right_id_L ∅ (∪)).
Qed.

(** Once the element type is a pitch class, transposing by [m] and then by
    [n] is transposing by [m + n]. *)
Lemma transpose_loop_compose v A m n :
  transpose_loop (TPitch v) A m ≫= (λ B, transpose_loop (TPitch v) B n)
  = transpose_loop (TPitch v) A (m + n).
Proof.
  rewrite !transpose_loop_pitch. simpl. rewrite transpose_loop_pitch.
  f_equal. apply set_eq. intros y. rewrite !elem_of_map. split.
  - intros (z & -> & (x & -> & Hx)%elem_of_map). exists x. simpl.
    split; [f_equal; lia | done].
  - intros (x & -> & Hx). exists (mkPitch v (p x + m)). simpl.
    split; [f_equal; lia|]. apply elem_of_map. eauto.
Qed.

(** Once the element type is the pitch class of the elements, inverting
    twice gives the pset back. *)
Lemma invert_loop_involutive v A :
  (∀ x, x ∈ A → kind x = v) →
  invert_loop (TPitch v) A ≫= invert_loop (TPitch v) = Ok A.
Proof.
  intros Hkind. rewrite invert_loop_pitch. simpl. rewrite invert_loop_pitch.
  f_equal. apply set_eq. intros y. rewrite elem_of_map. split.
  - intros (z & -> & (x & -> & Hx)%elem_of_map). simpl.
    replace (p x * -1 * -1) with (p x) by lia.
    rewrite <- (Hkind x Hx). by destruct x.
  - intros Hy. exists (mkPitch v (p y * -1)). simpl. split.
    + replace (p y * -1 * -1) with (p y) by lia.
      rewrite <- (Hkind y Hy). by destruct y.
    + apply elem_of_map. eauto.
Qed.

(** ** The loop of subsets, for a pitch class [t] *)

Lemma land_shiftl_1 index i :
  0 ≤ i → Z.land index (Z.shiftl 1 i) = 0 ↔ Z.testbit index i = false.
Proof.
  intros Hi. rewrite Z.shiftl_1_l. split.
  - intros Hland.
    assert (Z.testbit (Z.land index (2 ^ i)) i = false) as Hbit
      by (by rewrite Hland, Z.bits_0).
    rewrite Z.land_spec, Z.pow2_bits_true in Hbit by done.
    by rewrite andb_true_r in Hbit.
  - intros Hbit. apply Z.bits_inj'. intros k Hk.
    rewrite Z.land_spec, Z.bits_0, Z.pow2_bits_eqb by done.
    destruct (Z.eqb_spec i k) as [->|_].
    + by rewrite Hbit.
    + apply andb_false_r.
Qed.

Lemma subset_at_rows v (pseg : list pitch) index l row :
  for_in l
    (λ row i,
       if decide (Z.land index (Z.shiftl 1 (Z.of_nat i)) = 0) then mret row
       else y ← py_construct (TPitch v) (p (pseg !!! i)); mret (row ++ [y]))
    row
  = Ok (row ++ ((λ i, mkPitch v (p (pseg !!! i)))
                  <$> filter (λ i, Z.testbit index (Z.of_nat i) = true) l)).
Proof.
  revert row. induction l as [|i l IH]; intros row; cbn [for_in].
  - by rewrite app_nil_r.
  - case_decide as Hland; simpl.
    + apply land_shiftl_1 in Hland; [|lia].
      rewrite IH, filter_cons_False; [done|congruence].
    + rewrite IH, filter_cons_True.
      * by rewrite fmap_cons, <- app_assoc.
      * destruct (Z.testbit index (Z.of_nat i)) eqn:Hbit; [done|].
        destruct Hland. apply land_shiftl_1; [lia | done].
Qed.

Lemma subset_at_pitch v pseg len index :
  subset_at (TPitch v) pseg len index = Ok (masked v pseg len index).
Proof. unfold subset_at. by rewrite subset_at_rows. Qed.

Lemma foldl_snoc_all {A B} (h : A → B) l (acc : list B) :
  foldl (λ sub index, sub ++ [h index]) acc l = acc ++ (h <$> l).
Proof.
  revert acc. induction l as [|x l IH]; intros acc; simpl.
  - by rewrite app_nil_r.
  - by rewrite IH, <- app_assoc.
Qed.

Lemma subsets_loop_pitch v pset :
  subsets_loop (TPitch v) pset
  = Ok (sort_subs
          ((λ index, masked v (sorted_pseg pset) (size pset) (Z.of_nat index))
             <$> seq 0 (2 ^ size pset))).
Proof.
  unfold subsets_loop.
  rewrite (for_in_ok _ (λ sub index,
    sub ++ [masked v (sorted_pseg pset) (size pset) (Z.of_nat index)])).
  - simpl. by rewrite (foldl_snoc_all (λ index, masked v _ _ (Z.of_nat index))).
  - intros sub index. by rewrite subset_at_pitch.
Qed.

Lemma pitches_lt_asym a b : pitches_lt a b = true → pitches_lt b a = false.
Proof.
  revert b. induction a as [|x a IH]; intros [|y b]; simpl; try done.
  destruct (decide (x = y)) as [->|Hxy].
  - rewrite decide_True by done. apply IH.
  - rewrite decide_False by done.
    rewrite bool_decide_eq_true, bool_decide_eq_false. lia.
Qed.

Global Instance pitches_le_total : Total pitches_le.
Proof.
  intros a b. unfold pitches_le.
  destruct (pitches_lt b a) eqn:Hba; [right | by left].
  by apply pitches_lt_asym.
Qed.

Lemma fmap_inj_on {A B} (g : A → B) (l1 l2 : list A) :
  (∀ x y, x ∈ l1 → y ∈ l2 → g x = g y → x = y) →
  g <$> l1 = g <$> l2 → l1 = l2.
Proof.
  revert l2. induction l1 as [|x l1 IH]; intros [|y l2] Hinj Heq;
    simplify_eq/=; [done|].
  f_equal.
  - apply Hinj; [left | left | done].
  - apply IH; [|done]. intros x' y' Hx' Hy'. apply Hinj; by right.
Qed.

Lemma filter_all {A} (P : A → Prop) `{∀ x, Decision (P x)} (l : list A) :
  Forall P l → filter P l = l.
Proof.
  induction 1 as [|x l Hx _ IH]; [done|].
  by rewrite filter_cons_True, IH.
Qed.

Lemma filter_none {A} (P : A → Prop) `{∀ x, Decision (P x)} (l : list A) :
  Forall (λ x, ¬ P x) l → filter P l = [].
Proof.
  induction 1 as [|x l Hx _ IH]; [done|].
  by rewrite filter_cons_False, IH.
Qed.

(** A pset all of whose elements are of the pitch class [v]. *)
Lemma masked_rebuild v pset i :
  (∀ x, x ∈ pset → kind x = v) → (i < size pset)%nat →
  mkPitch v (p (sorted_pseg pset !!! i)) = sorted_pseg pset !!! i.
Proof.
  intros Hkind Hi.
  destruct (sorted_pseg_lookup pset i Hi) as (x & _ & -> & Hx).
  rewrite <- (Hkind x Hx). by destruct x.
Qed.

Lemma masked_zero v pseg len : masked v pseg len 0 = [].
Proof.
  unfold masked. rewrite filter_none; [done|].
  apply Forall_forall. intros i _. by rewrite Z.bits_0.
Qed.

Lemma masked_ones v pset :
  (∀ x, x ∈ pset → kind x = v) →
  masked v (sorted_pseg pset) (size pset) (Z.ones (Z.of_nat (size pset)))
  = sorted_pseg pset.
Proof.
  intros Hkind. unfold masked. rewrite filter_all.
  - apply list_eq. intros i. rewrite list_lookup_fmap.
    destruct (decide (i < size pset)%nat) as [Hi|Hi].
    + rewrite lookup_seq_lt by done. simpl.
      rewrite masked_rebuild by done.
      by destruct (sorted_pseg_lookup pset i Hi) as (x & -> & -> & _).
    + rewrite (lookup_ge_None_2 (seq 0 (size pset)))
        by (rewrite length_seq; lia).
      symmetry. apply lookup_ge_None_2. rewrite sorted_pseg_length. lia.
  - apply Forall_forall. intros i Hi%elem_of_seq.
    apply Z.ones_spec_low. lia.
Qed.

Lemma masked_inj v pset a b :
  (∀ x, x ∈ pset → kind x = v) →
  0 ≤ a < 2 ^ Z.of_nat (size pset) → 0 ≤ b < 2 ^ Z.of_nat (size pset) →
  masked v (sorted_pseg pset) (size pset) a
  = masked v (sorted_pseg pset) (size pset) b →
  a = b.
Proof.
  intros Hkind Ha Hb Heq. unfold masked in Heq.
  apply fmap_inj_on in Heq.
  - apply Z.bits_inj'. intros k Hk.
    destruct (decide (k < Z.of_nat (size pset))) as [Hlt|Hge].
    + assert (Z.to_nat k ∈ seq 0 (size pset)) as Hin
        by (apply elem_of_seq; lia).
      assert (∀ c, Z.testbit c k = true ↔
        Z.to_nat k ∈ filter (λ i, Z.testbit c (Z.of_nat i) = true)
                       (seq 0 (size pset))) as Hbit.
      { intros c. rewrite list_elem_of_filter, Z2Nat.id by done. tauto. }
      destruct (Z.testbit a k) eqn:Hak, (Z.testbit b k) eqn:Hbk; try done.
      * apply Hbit in Hak. rewrite Heq in Hak. apply Hbit in Hak. congruence.
      * apply Hbit in Hbk. rewrite <- Heq in Hbk. apply Hbit in Hbk. congruence.
    + rewrite <- (Z.mod_small a (2 ^ Z.of_nat (size pset))) by done.
      rewrite <- (Z.mod_small b (2 ^ Z.of_nat (size pset))) by done.
      rewrite !Z.mod_pow2_bits_high by lia. done.
  - intros i j [_ Hi%elem_of_seq]%list_elem_of_filter
      [_ Hj%elem_of_seq]%list_elem_of_filter Hij.
    rewrite !masked_rebuild in Hij by (done || lia).
    destruct (sorted_pseg_lookup pset i) as (x & Hx & Hxt & _); [lia|].
    destruct (sorted_pseg_lookup pset j) as (y & Hy & Hyt & _); [lia|].
    rewrite Hxt, Hyt in Hij. subst y.
    apply (NoDup_lookup _ _ _ _ (sorted_pseg_NoDup pset) Hx Hy).
Qed.

(** Once the element type is the pitch class of the elements, the loop of
    [subsets] returns a sorted list of 2^n pairwise distinct entries, among
    them the empty list and the ascending-sorted list of all elements. *)
Lemma subsets_loop_spec v pset :
  (∀ x, x ∈ pset → kind x = v) →
  ∃ sub, subsets_loop (TPitch v) pset = Ok sub ∧
    length sub = (2 ^ size pset)%nat ∧ Sorted pitches_le sub ∧ NoDup sub ∧
    [] ∈ sub ∧ sorted_pseg pset ∈ sub.
Proof.
  intros Hkind. eexists. split; [apply subsets_loop_pitch|].
  assert (0 < 2 ^ size pset)%nat as Hpos.
  { pose proof (Nat.pow_nonzero 2 (size pset)). lia. }
  assert (∀ k : nat, (k < 2 ^ size pset)%nat →
            0 ≤ Z.of_nat k < 2 ^ Z.of_nat (size pset)) as Hrange.
  { intros k Hk. apply Nat2Z.inj_lt in Hk. rewrite Nat2Z.inj_pow in Hk. lia. }
  set (raw := (λ index, masked v (sorted_pseg pset) (size pset) (Z.of_nat index))
                <$> seq 0 (2 ^ size pset)).
  assert (sort_subs raw ≡ₚ raw) as Hperm by apply merge_sort_Permutation.
  split; [rewrite Hperm; unfold raw; by rewrite length_fmap, length_seq|].
  split; [apply Sorted_merge_sort, _|].
  rewrite Hperm. unfold raw. split; [|split].
  - apply NoDup_fmap_2_strong; [|apply NoDup_seq].
    intros a b Ha%elem_of_seq Hb%elem_of_seq Heq.
    apply Nat2Z.inj, (masked_inj v pset); auto with lia.
  - apply list_elem_of_fmap. exists 0%nat. split.
    + by rewrite masked_zero.
    + apply elem_of_seq. lia.
  - apply list_elem_of_fmap. exists (2 ^ size pset - 1)%nat. split.
    + rewrite Nat2Z.inj_sub, Nat2Z.inj_pow by lia.
      change (Z.of_nat 2) with 2. change (Z.of_nat 1) with 1.
      replace (2 ^ Z.of_nat (size pset) - 1)
        with (Z.ones (Z.of_nat (size pset))) by (rewrite Z.ones_equiv; lia).
      symmetry. by apply masked_ones.
    + apply elem_of_seq. lia.
Qed.

(** ** The loop of pcint_class *)

Lemma pcint_intlist_lookup n (pseg : list pitch) i x y :
  pseg !! i = Some x → pseg !! S i = Some y →
  pcint_intlist n pseg !! i = Some ((p y - p x) `mod` n).
Proof.
  intros Hx Hy. unfold pcint_intlist.
  pose proof (lookup_lt_Some _ _ _ Hy) as Hlen.
  rewrite list_lookup_fmap, lookup_seq_lt by lia. simpl.
  rewrite Nat.sub_0_r.
  by rewrite (list_lookup_total_correct _ _ _ Hx),
    (list_lookup_total_correct _ _ _ Hy).
Qed.

Lemma modulus_of_pitch_class :
  modulus_of (TPitch PitchClass12) = 12 ∧ modulus_of (TPitch PitchClass24) = 24.
Proof. done. Qed.

(** ** Claims on the functions that infer the element type *)

(** C3. [subsets] of the three-element pset {0,1,4} raises [TypeError]: no
    list of subsets is returned. *)
Theorem subsets_raises_on_014 :
  subsets {[ pc12 0; pc12 1; pc12 4 ]} = Raise TypeError.
Proof. apply subsets_raises. Qed.

(** C4. [transpose] and [invert] raise [TypeError] on the non-empty pset
    {0,4,7}, not only on the empty pset. *)
Theorem transpose_invert_raise_on_nonempty :
  let pset : gset pitch := {[ pc12 0; pc12 4; pc12 7 ]} in
  pset ≠ ∅ ∧
  transpose pset 2 = Raise TypeError ∧ invert pset = Raise TypeError ∧
  transpose ∅ 2 = Raise TypeError ∧ invert ∅ = Raise TypeError.
Proof.
  intros pset. split; [by_evaluation|].
  by rewrite !transpose_raises, !invert_raises.
Qed.

(** C5. [pcint_class] raises [TypeError] on a pset of 12-division pitch
    classes and on a pset of 24-division pitch classes: no interval list is
    returned for either. *)
Theorem pcint_class_raises_on_pitch_classes :
  pcint_class {[ pc12 0; pc12 4; pc12 7 ]} = Raise TypeError ∧
  pcint_class {[ pc24 0; pc24 7; pc24 14 ]} = Raise TypeError.
Proof. split; apply pcint_class_raises. Qed.

(** C6. [fb_class] of the pset {0,4,7} with p0 = 0 raises [TypeError]: no
    list is returned, so [4,7] is not, and no entry is removed. *)
Theorem fb_class_raises_on_triad :
  fb_class {[ pc12 0; pc12 4; pc12 7 ]} 0 = Raise TypeError ∧
  fb_class {[ pc12 0; pc12 4; pc12 7 ]} 0 ≠ Ok [4; 7].
Proof. by rewrite fb_class_raises. Qed.

(** C7. Neither [transpose(transpose(A, 1), 2)] nor [transpose(A, 3)]
    returns a pset for A = {0,3,7}: the first call already raises
    [TypeError]. *)
Theorem transpose_twice_raises :
  let A : gset pitch := {[ pc12 0; pc12 3; pc12 7 ]} in
  transpose A 1 = Raise TypeError ∧
  transpose A 1 ≫= (λ B, transpose B 2) = Raise TypeError ∧
  transpose A (1 + 2) = Raise TypeError.
Proof. intros A. by rewrite !transpose_raises. Qed.

(** C8. [invert(invert(A))] does not return A for A = {1,5}: the inner
    call raises [TypeError]. *)
Theorem invert_twice_raises :
  let A : gset pitch := {[ pc12 1; pc12 5 ]} in
  invert A ≫= invert = Raise TypeError ∧ invert A ≫= invert ≠ Ok A.
Proof. intros A. by rewrite invert_raises. Qed.

(** ** Values in canonical order *)

Lemma sorted_values_sorted pset : Sorted Z.le (p <$> sorted_pseg pset).
Proof.
  apply (Sorted_fmap _ pitch_le); [done|].
  apply Sorted_merge_sort, _.
Qed.

Lemma sorted_values_lookup_le pset i j x y :
  (i ≤ j)%nat → sorted_pseg pset !! i = Some x → sorted_pseg pset !! j = Some y →
  p x ≤ p y.
Proof.
  intros Hij Hx Hy.
  destruct (decide (i = j)) as [->|Hne]; [by simplify_eq|].
  pose proof (sorted_pseg_sorted pset) as Hs.
  apply list_elem_of_split_length in Hx as (l1 & l2 & Heq & ->).
  rewrite Heq in Hs, Hy.
  apply StronglySorted_app_1_r, StronglySorted_inv in Hs as [_ Hall].
  rewrite lookup_app_r in Hy by lia.
  destruct (j - length l1)%nat as [|k] eqn:Hk; [lia|]. simpl in Hy.
  rewrite Forall_forall in Hall. apply Hall. by eapply list_elem_of_lookup_2.
Qed.

Lemma all_of_kind_values_inj v pset x y :
  all_of_kind v pset → x ∈ pset → y ∈ pset → p x = p y → x = y.
Proof.
  intros Hkind Hx Hy Hp. destruct x as [kx px], y as [ky py].
  apply Hkind in Hx, Hy. by simplify_eq/=.
Qed.

(** In a pset of one pitch class the values strictly ascend. *)
Lemma sorted_values_lookup_lt v pset i j x y :
  all_of_kind v pset →
  (i < j)%nat → sorted_pseg pset !! i = Some x → sorted_pseg pset !! j = Some y →
  p x < p y.
Proof.
  intros Hkind Hij Hx Hy.
  assert (p x ≤ p y) as Hle
    by (apply (sorted_values_lookup_le pset i j); [lia | done..]).
  destruct (decide (p x = p y)) as [Heq|]; [|lia].
  apply (all_of_kind_values_inj v pset) in Heq;
    [| done | by eapply elem_of_sorted_pseg, list_elem_of_lookup_2 ..].
  subst y. pose proof (NoDup_lookup _ _ _ _ (sorted_pseg_NoDup pset) Hx Hy). lia.
Qed.

(** ** The set-class *)

Lemma length_diffs l : length (diffs l) = (length l - 1)%nat.
Proof.
  induction l as [|a [|b l] IH]; [done..|].
  cbn [diffs length] in *. lia.
Qed.

Lemma diffs_lookup l i a b :
  l !! i = Some a → l !! S i = Some b → diffs l !! i = Some (b - a).
Proof.
  revert i. induction l as [|a' [|b' l] IH]; intros i Ha Hb; [done..|].
  destruct i as [|i]; simplify_eq/=; [done|]. by apply IH.
Qed.

Lemma set_class_intlist_diffs pseg : set_class_intlist pseg = diffs (p <$> pseg).
Proof.
  apply list_eq. intros i. unfold set_class_intlist.
  rewrite list_lookup_fmap.
  destruct (decide (S i < length pseg)%nat) as [Hi|Hi].
  - rewrite lookup_seq_lt by lia. simpl. rewrite Nat.sub_0_r.
    destruct (lookup_lt_is_Some_2 pseg i) as [x Hx]; [lia|].
    destruct (lookup_lt_is_Some_2 pseg (S i)) as [y Hy]; [lia|].
    rewrite (list_lookup_total_correct _ _ _ Hx),
      (list_lookup_total_correct _ _ _ Hy).
    symmetry. apply diffs_lookup; rewrite list_lookup_fmap.
    + by rewrite Hx.
    + by rewrite Hy.
  - rewrite (lookup_ge_None_2 (seq _ _)) by (rewrite length_seq; lia).
    symmetry. apply lookup_ge_None_2.
    rewrite length_diffs, length_fmap. lia.
Qed.

Lemma diffs_nonneg l : Sorted Z.le l → Forall (λ d, 0 ≤ d) (diffs l).
Proof.
  induction 1 as [|a l Hs IH Hhd]; [constructor|].
  destruct l as [|b l]; [constructor|].
  cbn [diffs]. constructor; [|done]. inv Hhd. lia.
Qed.

Lemma sumZ_diffs l a b :
  head l = Some a → last l = Some b → sumZ (diffs l) = b - a.
Proof.
  revert a. induction l as [|a' l IH]; intros a Ha Hb; [done|].
  injection Ha as ->. destruct l as [|b' l].
  - injection Hb as ->. cbn. lia.
  - change (diffs (a :: b' :: l)) with ((b' - a) :: diffs (b' :: l)).
    change (sumZ ((b' - a) :: diffs (b' :: l)))
      with (b' - a + sumZ (diffs (b' :: l))).
    rewrite (IH b'); [lia | done | done].
Qed.

Lemma diffs_shift n l : diffs ((λ z, z + n) <$> l) = diffs l.
Proof.
  induction l as [|a [|b l] IH]; [done..|].
  cbn [diffs fmap list_fmap] in *. rewrite IH. f_equal. lia.
Qed.

Lemma elements_set_map_perm (f : pitch → pitch) (pset : gset pitch) :
  (∀ x y, x ∈ pset → y ∈ pset → f x = f y → x = y) →
  elements (set_map (D := gset pitch) f pset) ≡ₚ f <$> elements pset.
Proof.
  intros Hinj. unfold set_map. apply elements_list_to_set.
  apply NoDup_fmap_2_strong; [|apply NoDup_elements].
  intros x y Hx%elem_of_elements Hy%elem_of_elements. by apply Hinj.
Qed.

(** The sorted values of the image of a pset under a value-increasing map. *)
Lemma sorted_values_set_map (f : pitch → pitch) (g : Z → Z) pset :
  (∀ x, p (f x) = g (p x)) → (∀ a b, a ≤ b → g a ≤ g b) →
  (∀ x y, x ∈ pset → y ∈ pset → f x = f y → x = y) →
  p <$> sorted_pseg (set_map (D := gset pitch) f pset)
  = g <$> (p <$> sorted_pseg pset).
Proof.
  intros Hfg Hmono Hinj. apply (Sorted_unique Z.le).
  - apply sorted_values_sorted.
  - apply (Sorted_fmap _ Z.le); [done | apply sorted_values_sorted].
  - rewrite !sorted_pseg_perm, elements_set_map_perm by done.
    rewrite <- !list_fmap_compose.
    rewrite (list_fmap_ext (p ∘ f) (g ∘ p)); [done|].
    intros i x _. apply Hfg.
Qed.

Lemma all_of_kind_shift_inj v w n pset x y :
  all_of_kind v pset → x ∈ pset → y ∈ pset →
  mkPitch w (p x + n) = mkPitch w (p y + n) → x = y.
Proof.
  intros Hkind Hx Hy [= Hp]. apply (all_of_kind_values_inj v pset); [done..|lia].
Qed.

(** X1. The set-class of a pset of n elements has n - 1 entries (none for
    n ≤ 1), and no entry is negative. *)
Theorem p_set_class_length_nonneg (pset : gset pitch) :
  length (p_set_class pset) = (size pset - 1)%nat ∧
  Forall (λ d, 0 ≤ d) (p_set_class pset).
Proof.
  unfold p_set_class. rewrite set_class_intlist_diffs. split.
  - by rewrite length_diffs, length_fmap, sorted_pseg_length.
  - apply diffs_nonneg, sorted_values_sorted.
Qed.

(** X2. For a non-empty pset the entries of the set-class add up to the
    span of the pset: the largest value minus the smallest. *)
Theorem p_set_class_sum_span (pset : gset pitch) :
  pset ≠ ∅ →
  ∃ lo hi, lo ∈ pset ∧ hi ∈ pset ∧
    (∀ x, x ∈ pset → p lo ≤ p x ≤ p hi) ∧
    sumZ (p_set_class pset) = p hi - p lo.
Proof.
  intros Hne.
  assert (0 < size pset)%nat as Hsize.
  { apply Nat.neq_0_lt_0. intros H0. by apply size_empty_iff, leibniz_equiv in H0. }
  destruct (sorted_pseg_lookup pset 0 Hsize) as (lo & Hlo & _ & Hloin).
  destruct (sorted_pseg_lookup pset (pred (size pset))) as (hi & Hhi & _ & Hhiin);
    [lia|].
  exists lo, hi. split; [done|]. split; [done|]. split.
  - intros x Hx%elem_of_sorted_pseg.
    apply list_elem_of_lookup_1 in Hx as [i Hi].
    pose proof (lookup_lt_Some _ _ _ Hi) as Hlt. rewrite sorted_pseg_length in Hlt.
    split.
    + apply (sorted_values_lookup_le pset 0 i); [lia | done..].
    + apply (sorted_values_lookup_le pset i (pred (size pset))); [lia | done..].
  - unfold p_set_class. rewrite set_class_intlist_diffs.
    apply sumZ_diffs.
    + by rewrite head_lookup, list_lookup_fmap, Hlo.
    + by rewrite last_lookup, length_fmap, sorted_pseg_length,
        list_lookup_fmap, Hhi.
Qed.

Lemma p_set_class_sum_span_witness :
  ∃ lo hi : pitch,
    lo ∈ ({[ pc12 0; pc12 1; pc12 4 ]} : gset pitch) ∧
    hi ∈ ({[ pc12 0; pc12 1; pc12 4 ]} : gset pitch) ∧
    (∀ x, x ∈ ({[ pc12 0; pc12 1; pc12 4 ]} : gset pitch) → p lo ≤ p x ≤ p hi) ∧
    sumZ (p_set_class {[ pc12 0; pc12 1; pc12 4 ]}) = p hi - p lo.
Proof. apply p_set_class_sum_span. by_evaluation. Defined.

(** X3. In a pset whose elements are all of one pitch class, every entry of
    the set-class is strictly positive. *)
Theorem p_set_class_positive v (pset : gset pitch) :
  all_of_kind v pset → Forall (λ d, 0 < d) (p_set_class pset).
Proof.
  intros Hkind. apply Forall_lookup. intros i d.
  unfold p_set_class, set_class_intlist.
  rewrite list_lookup_fmap_Some. intros (k & -> & [-> Hk]%lookup_seq).
  rewrite sorted_pseg_length in Hk. simpl. rewrite Nat.sub_0_r.
  destruct (sorted_pseg_lookup pset i) as (x & Hx & -> & _); [lia|].
  destruct (sorted_pseg_lookup pset (S i)) as (y & Hy & -> & _); [lia|].
  assert (p x < p y)
    by (apply (sorted_values_lookup_lt v pset i (S i)); [done | lia | done..]).
  lia.
Qed.

Lemma p_set_class_positive_witness :
  Forall (λ d, 0 < d) (p_set_class {[ pc12 0; pc12 1; pc12 4 ]}).
Proof.
  apply (p_set_class_positive PitchClass12).
  unfold all_of_kind. by_evaluation.
Defined.

(** ** transform *)

Lemma transform_set_map pset (t : UTO) :
  transform pset t = set_map (λ x, mkPitch Pitch12 (p x * t.2 + t.1)) pset.
Proof.
  unfold transform.
  rewrite (foldl_add_all (λ x, mkPitch Pitch12 (p x * t.2 + t.1))).
  by rewrite (right_id_L ∅ (∪)).
Qed.

Lemma elem_of_transform pset (t : UTO) y :
  y ∈ transform pset t ↔ ∃ x, x ∈ pset ∧ y = mkPitch Pitch12 (p x * t.2 + t.1).
Proof.
  rewrite transform_set_map, elem_of_map. split; intros (x & ? & ?); eauto.
Qed.

Lemma size_set_map_le (f : pitch → pitch) (pset : gset pitch) :
  (size (set_map (D := gset pitch) f pset) ≤ size pset)%nat.
Proof.
  unfold set_map, size, set_size. simpl.
  rewrite <- (length_fmap f (elements pset)).
  apply submseteq_length, NoDup_submseteq; [apply NoDup_elements|].
  intros y Hy%elem_of_elements. by apply elem_of_list_to_set in Hy.
Qed.

(** X5. Transforming by (a, b) and then by (c, d) is transforming once by
    (a*d + c, b*d). *)
Theorem transform_compose (pset : gset pitch) (a b c d : Z) :
  transform (transform pset (a, b)) (c, d) = transform pset (a * d + c, b * d).
Proof.
  apply set_eq. intros y. rewrite !elem_of_transform. simpl. split.
  - intros (z & (x & Hx & ->)%elem_of_transform & ->). simpl.
    exists x. split; [done|]. f_equal. lia.
  - intros (x & Hx & ->). exists (mkPitch Pitch12 (p x * b + a)). split.
    + apply elem_of_transform. eauto.
    + simpl. f_equal. lia.
Qed.

(** X6. [transform] always builds [Pitch12] elements, whatever the pitch
    class of the input: the transformation (0, 1), which leaves every value
    as it is, returns the pset itself exactly when all its elements are
    [Pitch12]. *)
Theorem transform_builds_Pitch12 (pset : gset pitch) (t : UTO) :
  all_of_kind Pitch12 (transform pset t) ∧
  (transform pset (0, 1) = pset ↔ all_of_kind Pitch12 pset).
Proof.
  split.
  - intros y (x & _ & ->)%elem_of_transform. done.
  - split.
    + intros Heq x Hx. rewrite <- Heq in Hx.
      by apply elem_of_transform in Hx as (z & _ & ->).
    + intros Hkind. apply set_eq. intros y. rewrite elem_of_transform. simpl.
      split.
      * intros (x & Hx & ->). replace (p x * 1 + 0) with (p x) by lia.
        rewrite <- (Hkind x Hx). by destruct x.
      * intros Hy. exists y. split; [done|].
        replace (p y * 1 + 0) with (p y) by lia.
        rewrite <- (Hkind y Hy). by destruct y.
Qed.

(** X17. On [Pitch12] elements the transformation (n, 1) is what the loop of
    [transpose] computes, and (n, -1) is what the loop of [invert] followed
    by the loop of [transpose] computes. *)
Theorem transform_transpose_invert (pset : gset pitch) (n : Z) :
  transpose_loop (TPitch Pitch12) pset n = Ok (transform pset (n, 1)) ∧
  invert_loop (TPitch Pitch12) pset
    ≫= (λ B, transpose_loop (TPitch Pitch12) B n)
  = Ok (transform pset (n, -1)).
Proof.
  split.
  - rewrite transpose_loop_pitch, transform_set_map. f_equal.
    apply set_eq. intros y. rewrite !elem_of_map. simpl.
    split; intros (x & -> & Hx); exists x; (split; [f_equal; lia | done]).
  - rewrite invert_loop_pitch. simpl.
    rewrite transpose_loop_pitch, transform_set_map. f_equal.
    apply set_eq. intros y. rewrite !elem_of_map. simpl. split.
    + intros (z & -> & (x & -> & Hx)%elem_of_map). by exists x.
    + intros (x & -> & Hx). exists (mkPitch Pitch12 (p x * -1)).
      split; [done|]. apply elem_of_map. eauto.
Qed.

(** X7. [transform] never returns more elements than it is given; a
    multiplier 0 sends a non-empty pset to the single element whose value
    is the offset; a non-zero multiplier keeps the number of elements of a
    pset of one pitch class. *)
Theorem transform_size (v : variant) (pset : gset pitch) (a b : Z) :
  (size (transform pset (a, b)) ≤ size pset)%nat ∧
  (pset ≠ ∅ → transform pset (a, 0) = {[ mkPitch Pitch12 a ]}) ∧
  (all_of_kind v pset → b ≠ 0 → size (transform pset (a, b)) = size pset).
Proof.
  split; [|split].
  - rewrite transform_set_map. apply size_set_map_le.
  - intros Hne. apply set_eq. intros y.
    rewrite elem_of_transform, elem_of_singleton. simpl. split.
    + intros (x & _ & ->). f_equal. lia.
    + intros ->. apply set_choose_L in Hne as [x Hx].
      exists x. split; [done|]. f_equal. lia.
  - intros Hkind Hb. rewrite transform_set_map. unfold size, set_size. simpl.
    rewrite elements_set_map_perm, length_fmap; [done|].
    intros x y Hx Hy [= Hp]. simpl in Hp.
    apply (all_of_kind_values_inj v pset); [done..|nia].
Qed.

Lemma transform_size_witness :
  (size (transform {[ pc12 0; pc12 3; pc12 7 ]} (1, -1)%Z) ≤ 3)%nat ∧
  transform {[ pc12 0; pc12 3; pc12 7 ]} (1, 0) = {[ mkPitch Pitch12 1 ]} ∧
  size (transform {[ pc12 0; pc12 3; pc12 7 ]} (1, -1)) = 3%nat.
Proof.
  destruct (transform_size PitchClass12 {[ pc12 0; pc12 3; pc12 7 ]} 1 (-1))
    as (Hle & _ & Hsize).
  destruct (transform_size PitchClass12 {[ pc12 0; pc12 3; pc12 7 ]} 1 0)
    as (_ & Hzero & _).
  split; [exact Hle|]. split.
  - apply Hzero. by_evaluation.
  - apply Hsize; [unfold all_of_kind; by_evaluation | lia].
Defined.

(** ** More on loops as folds *)

Lemma foldl_reaches {S A} (Q : A → S → Prop) (f : S → A → S) l s :
  (∀ s x y, Q y s → Q y (f s x)) → (∀ s x, x ∈ l → Q x (f s x)) →
  ∀ x, x ∈ l → Q x (foldl f s l).
Proof.
  intros Hkeep. revert s. induction l as [|a l IH]; intros s Hset x Hx.
  { by apply elem_of_nil in Hx. }
  cbn [foldl]. apply elem_of_cons in Hx as [->|Hx].
  - apply (foldl_invariant (Q a)); [apply Hset; left | auto].
  - apply IH; [|done]. intros s' y Hy. apply Hset. by right.
Qed.

Lemma foldl_ext_in {S A} (f g : S → A → S) l s :
  (∀ s x, x ∈ l → f s x = g s x) → foldl f s l = foldl g s l.
Proof.
  revert s. induction l as [|a l IH]; intros s Hfg; [done|].
  cbn [foldl]. rewrite Hfg by left. apply IH.
  intros s' x Hx. apply Hfg. by right.
Qed.

Lemma values_lookup_total (g : Z → Z) (l l' : list pitch) i :
  p <$> l' = g <$> (p <$> l) → (i < length l)%nat →
  p (l' !!! i) = g (p (l !!! i)).
Proof.
  intros Heq Hi.
  assert (length l' = length l) as Hlen
    by (by rewrite <- (length_fmap p l'), Heq, !length_fmap).
  destruct (lookup_lt_is_Some_2 l i Hi) as [x Hx].
  destruct (lookup_lt_is_Some_2 l' i) as [y Hy]; [lia|].
  rewrite (list_lookup_total_correct _ _ _ Hx),
    (list_lookup_total_correct _ _ _ Hy).
  apply (f_equal (.!! i)) in Heq.
  rewrite !list_lookup_fmap, Hx, Hy in Heq. by simplify_eq/=.
Qed.

(** ** More on the interval-class roster *)

Lemma roster_count_keeps roster interval k :
  is_Some (roster !! k) → is_Some (roster_count roster interval !! k).
Proof.
  intros Hk. unfold roster_count.
  destruct (roster !! interval) as [c|];
    (destruct (decide (interval = k)) as [->|Hne];
      [by rewrite lookup_insert_eq | by rewrite lookup_insert_ne]).
Qed.

Lemma roster_count_adds roster interval :
  is_Some (roster_count roster interval !! interval).
Proof.
  unfold roster_count.
  destruct (roster !! interval) as [c|]; by rewrite lookup_insert_eq.
Qed.

Lemma roster_loop_reaches pseg len i j :
  (j < i < len)%nat →
  is_Some (roster_loop pseg ∅ len
             !! Z.abs (p (pseg !!! i) - p (pseg !!! j))).
Proof.
  intros Hij. unfold roster_loop.
  apply (foldl_reaches
    (λ i roster, ∀ j, (j < i)%nat →
       is_Some (roster !! Z.abs (p (pseg !!! i) - p (pseg !!! j))))
    _ (range_down len) ∅); [| |apply elem_of_range_down; lia|lia].
  - intros roster i' i'' Hkeep j' Hj'.
    apply (foldl_invariant (λ roster, is_Some (roster !! _))); [by apply Hkeep|].
    intros. by apply roster_count_keeps.
  - intros roster i' _ j' Hj'.
    apply (foldl_reaches
      (λ j roster, is_Some (roster !! Z.abs (p (pseg !!! i') - p (pseg !!! j)))));
      [| |by apply elem_of_range_down].
    + intros. by apply roster_count_keeps.
    + intros. apply roster_count_adds.
Qed.

Lemma roster_loop_counts_pos pseg len k c :
  roster_loop pseg ∅ len !! k = Some c → 1 ≤ c.
Proof.
  revert k c. unfold roster_loop.
  apply (foldl_invariant (λ roster : gmap Z Z, ∀ k c, roster !! k = Some c → 1 ≤ c)).
  { intros k c. by rewrite lookup_empty. }
  intros roster i _ Hinv.
  apply (foldl_invariant (λ roster : gmap Z Z, ∀ k c, roster !! k = Some c → 1 ≤ c));
    [done|].
  intros roster' j _ Hinv' k c. unfold roster_count.
  destruct (roster' !! _) as [c'|] eqn:Hc';
    (destruct (decide (Z.abs (p (pseg !!! i) - p (pseg !!! j)) = k)) as [<-|Hne];
      [rewrite lookup_insert_eq; intros [= <-] | rewrite lookup_insert_ne by done; apply Hinv']).
  - apply Hinv' in Hc'. lia.
  - lia.
Qed.

Lemma roster_loop_values pseg pseg' roster len :
  (∀ i j, (j < i < len)%nat →
     Z.abs (p (pseg !!! i) - p (pseg !!! j))
     = Z.abs (p (pseg' !!! i) - p (pseg' !!! j))) →
  roster_loop pseg roster len = roster_loop pseg' roster len.
Proof.
  intros Hval. unfold roster_loop.
  apply foldl_ext_in. intros r i Hi%elem_of_range_down.
  apply foldl_ext_in. intros r' j Hj%elem_of_range_down.
  by rewrite Hval by lia.
Qed.

(** X8. The keys of the roster are exactly the intervals between two
    distinct elements of the pset, and every count is at least 1. *)
Theorem p_ic_roster_keys_iff (pset : gset pitch) (k : Z) :
  (k ∈ dom (p_ic_roster pset) ↔
     ∃ x y, x ∈ pset ∧ y ∈ pset ∧ x ≠ y ∧ k = Z.abs (p x - p y)) ∧
  (∀ c, p_ic_roster pset !! k = Some c → 1 ≤ c).
Proof.
  split; [|exact (roster_loop_counts_pos _ _ k)].
  rewrite elem_of_dom. unfold p_ic_roster. split.
  - intros Hk.
    destruct (keys_from_pairs_loop _ _ k Hk) as (i & j & Hij & ->).
    rewrite sorted_pseg_length in Hij.
    destruct (sorted_pseg_lookup pset i) as (x & Hx & -> & Hxin); [lia|].
    destruct (sorted_pseg_lookup pset j) as (y & Hy & -> & Hyin); [lia|].
    exists x, y. repeat split; try done.
    intros <-.
    pose proof (NoDup_lookup _ _ _ _ (sorted_pseg_NoDup pset) Hx Hy). lia.
  - intros (x & y & Hx%elem_of_sorted_pseg & Hy%elem_of_sorted_pseg & Hne & ->).
    apply list_elem_of_lookup_1 in Hx as [i Hi], Hy as [j Hj].
    pose proof (lookup_lt_Some _ _ _ Hi). pose proof (lookup_lt_Some _ _ _ Hj).
    rewrite <- (list_lookup_total_correct _ _ _ Hi),
      <- (list_lookup_total_correct _ _ _ Hj).
    destruct (Nat.lt_trichotomy i j) as [Hlt|[->|Hgt]].
    + rewrite <- Z.abs_opp, Z.opp_sub_distr, Z.add_comm, Z.add_opp_r.
      apply roster_loop_reaches. lia.
    + by simplify_eq.
    + apply roster_loop_reaches. lia.
Qed.

(** X9. The roster is empty exactly when the pset has fewer than two
    elements. *)
Theorem p_ic_roster_empty_iff (pset : gset pitch) :
  p_ic_roster pset = ∅ ↔ (size pset ≤ 1)%nat.
Proof.
  split.
  - intros Hempty. destruct (decide (size pset ≤ 1)%nat) as [|Hbig]; [done|].
    exfalso.
    pose proof (roster_loop_reaches (sorted_pseg pset)
                  (length (sorted_pseg pset)) 1 0) as Hsome.
    fold (p_ic_roster pset) in Hsome. rewrite Hempty, lookup_empty in Hsome.
    rewrite sorted_pseg_length in Hsome.
    destruct Hsome as [? ?]; [lia | done].
  - intros Hsmall. apply map_eq. intros k. rewrite lookup_empty.
    apply eq_None_not_Some. intros Hk.
    destruct (keys_from_pairs_loop _ _ k Hk) as (i & j & Hij & _).
    rewrite sorted_pseg_length in Hij. lia.
Qed.

(** ** More on similarity *)

Lemma shared_at_bounds (r2 : gmap Z Z) k c :
  0 ≤ c → (∀ k c, r2 !! k = Some c → 0 ≤ c) → 0 ≤ shared_at r2 k c ≤ c.
Proof.
  intros Hc Hr2. unfold shared_at. destruct (r2 !! k) as [c2|] eqn:Hk; [|lia].
  apply Hr2 in Hk. case_decide; lia.
Qed.

Lemma ic_shared_loop_bounds (r1 r2 : gmap Z Z) :
  (∀ k c, r1 !! k = Some c → 0 ≤ c) → (∀ k c, r2 !! k = Some c → 0 ≤ c) →
  0 ≤ ic_shared_loop r1 r2 ≤ roster_total r1.
Proof.
  intros Hr1 Hr2. induction r1 as [|k c m Hk IH] using map_ind.
  - rewrite ic_shared_loop_empty_l, roster_total_empty. lia.
  - rewrite ic_shared_loop_insert_l, roster_total_insert_fresh by done.
    assert (0 ≤ c) as Hc by (apply (Hr1 k); apply lookup_insert_eq).
    pose proof (shared_at_bounds r2 k c Hc Hr2).
    assert (0 ≤ ic_shared_loop m r2 ≤ roster_total m); [|lia].
    apply IH. intros k' c' Hk'. apply (Hr1 k').
    rewrite lookup_insert_ne; [done|]. intros ->. congruence.
Qed.

Lemma p_ic_roster_counts_nonneg pset k c :
  p_ic_roster pset !! k = Some c → 0 ≤ c.
Proof.
  unfold p_ic_roster. intros Hc.
  pose proof (roster_loop_counts_pos _ _ _ _ Hc). lia.
Qed.

Lemma p_ic_roster_total pset :
  roster_total (p_ic_roster pset)
  = Z.of_nat (size pset) * (Z.of_nat (size pset) - 1) / 2.
Proof.
  unfold p_ic_roster.
  rewrite roster_total_loop, roster_total_empty, sorted_pseg_length. lia.
Qed.

(** X11. Without precomputed rosters, neither count of [pm_similarity] is
    negative; the first is at most the size of either pset and the second at
    most the number of pairs of either pset. *)
Theorem pm_similarity_bounds (A B : gset pitch) :
  let a := Z.of_nat (size A) in
  let b := Z.of_nat (size B) in
  0 ≤ (pm_similarity A B None None).1 ≤ Z.min a b ∧
  0 ≤ (pm_similarity A B None None).2
    ≤ Z.min (a * (a - 1) / 2) (b * (b - 1) / 2).
Proof.
  intros a b. unfold pm_similarity. cbn [default fst snd]. split.
  - assert (size (A ∩ B) ≤ size A)%nat
      by (apply subseteq_size, intersection_subseteq_l).
    assert (size (A ∩ B) ≤ size B)%nat
      by (apply subseteq_size, intersection_subseteq_r).
    subst a b. lia.
  - pose proof (ic_shared_loop_bounds (p_ic_roster A) (p_ic_roster B)
                  (p_ic_roster_counts_nonneg A) (p_ic_roster_counts_nonneg B)) as H1.
    pose proof (ic_shared_loop_bounds (p_ic_roster B) (p_ic_roster A)
                  (p_ic_roster_counts_nonneg B) (p_ic_roster_counts_nonneg A)) as H2.
    rewrite (ic_shared_loop_comm (p_ic_roster B)) in H2.
    rewrite !p_ic_roster_total in H1, H2. subst a b. lia.
Qed.

(** ** More on the interval-class matrix *)

Lemma well_shaped_cells_eq n (m1 m2 : list (list Z)) :
  well_shaped n m1 → well_shaped n m2 →
  (∀ i j, (i < n)%nat → (j < n)%nat → cell m1 i j = cell m2 i j) →
  m1 = m2.
Proof.
  intros [Hl1 Hr1] [Hl2 Hr2] Hcells. apply list_eq. intros i.
  destruct (decide (i < n)%nat) as [Hi|Hi].
  - destruct (lookup_lt_is_Some_2 m1 i) as [row1 Hrow1]; [lia|].
    destruct (lookup_lt_is_Some_2 m2 i) as [row2 Hrow2]; [lia|].
    rewrite Hrow1, Hrow2. f_equal. apply list_eq. intros j.
    rewrite Forall_lookup in Hr1, Hr2.
    destruct (decide (j < n)%nat) as [Hj|Hj].
    + specialize (Hcells i j Hi Hj). unfold cell in Hcells.
      by rewrite Hrow1, Hrow2 in Hcells.
    + rewrite !lookup_ge_None_2; [done|..].
      * rewrite (Hr2 _ _ Hrow2). lia.
      * rewrite (Hr1 _ _ Hrow1). lia.
  - rewrite !lookup_ge_None_2; [done | lia..].
Qed.

(** X13. The grid returned by [p_ic_matrix] does not depend on what the
    grid obtained from [numpy.empty] held: every cell is overwritten. *)
Theorem p_ic_matrix_ignores_uninit (u1 u2 : nat → nat → Z) (pset : gset pitch) :
  p_ic_matrix u1 pset = p_ic_matrix u2 pset.
Proof.
  rewrite !p_ic_matrix_result. case_decide; [|done]. f_equal.
  apply (well_shaped_cells_eq (size pset)); [apply filled_well_shaped..|].
  intros i j Hi Hj. by rewrite !filled_cell.
Qed.

(** X14. When no two values of the pset are more than 2^53 apart, the
    grid is returned and its intervals add up along the canonical order: for
    positions i ≤ j ≤ k, cell [i][k] is cell [i][j] plus cell [j][k]. *)
Theorem p_ic_matrix_additive uninit (pset : gset pitch) (i j k : nat) :
  (∀ x y, x ∈ pset → y ∈ pset → Z.abs (p x - p y) ≤ 2 ^ 53) →
  (i ≤ j)%nat → (j ≤ k)%nat → (k < size pset)%nat →
  ∃ mx a b, p_ic_matrix uninit pset = Ok mx ∧
    cell mx i j = Some a ∧ cell mx j k = Some b ∧ cell mx i k = Some (a + b).
Proof.
  intros Hspan Hij Hjk Hk.
  exists (filled uninit (sorted_pseg pset) (size pset)).
  rewrite p_ic_matrix_result, decide_True.
  2:{ apply grid_fits_span. intros x y Hx Hy.
      specialize (Hspan x y Hx Hy).
      assert (2 ^ 53 < 2 ^ 1023) by (by vm_compute). lia. }
  rewrite !filled_cell by lia. unfold diff_at.
  destruct (sorted_pseg_lookup pset i) as (x & Hx & -> & Hxin); [lia|].
  destruct (sorted_pseg_lookup pset j) as (y & Hy & -> & Hyin); [lia|].
  destruct (sorted_pseg_lookup pset k) as (z & Hz & -> & Hzin); [lia|].
  pose proof (sorted_values_lookup_le pset i j x y Hij Hx Hy).
  pose proof (sorted_values_lookup_le pset j k y z Hjk Hy Hz).
  pose proof (Hspan x y Hxin Hyin). pose proof (Hspan y z Hyin Hzin).
  pose proof (Hspan x z Hxin Hzin).
  rewrite !float64_round_exact by lia.
  eexists _, _. split; [done|]. split; [done|]. split; [done|]. f_equal. lia.
Qed.

Lemma p_ic_matrix_additive_witness :
  ∃ mx a b, p_ic_matrix (λ _ _, 7) {[ pc12 0; pc12 1; pc12 4 ]} = Ok mx ∧
    cell mx 0 1 = Some a ∧ cell mx 1 2 = Some b ∧ cell mx 0 2 = Some (a + b).
Proof.
  apply p_ic_matrix_additive; [| lia | lia | vm_compute; lia].
  intros x y Hx Hy. revert y Hy. revert x Hx. by_evaluation.
Defined.

(** ** Transposing and scaling with transform *)

Lemma size_set_map_inj (f : pitch → pitch) (pset : gset pitch) :
  (∀ x y, x ∈ pset → y ∈ pset → f x = f y → x = y) →
  size (set_map (D := gset pitch) f pset) = size pset.
Proof.
  intros Hinj. unfold size, set_size. simpl.
  by rewrite elements_set_map_perm, length_fmap.
Qed.

Lemma transform_inj v (pset : gset pitch) (a b : Z) x y :
  all_of_kind v pset → b ≠ 0 → x ∈ pset → y ∈ pset →
  mkPitch Pitch12 (p x * b + a) = mkPitch Pitch12 (p y * b + a) → x = y.
Proof.
  intros Hkind Hb Hx Hy [= Hp].
  apply (all_of_kind_values_inj v pset); [done..|nia].
Qed.

Lemma sorted_values_transform v (pset : gset pitch) (a b : Z) :
  all_of_kind v pset → 0 < b →
  p <$> sorted_pseg (transform pset (a, b))
  = (λ z, z * b + a) <$> (p <$> sorted_pseg pset).
Proof.
  intros Hkind Hb. rewrite transform_set_map. simpl.
  apply sorted_values_set_map; [done | intros z1 z2 ?; nia |].
  intros x y. apply (transform_inj v); [done | lia].
Qed.

Lemma size_transform v (pset : gset pitch) (a b : Z) :
  all_of_kind v pset → b ≠ 0 → size (transform pset (a, b)) = size pset.
Proof.
  intros Hkind Hb. rewrite transform_set_map. simpl. apply size_set_map_inj.
  intros x y. by apply (transform_inj v).
Qed.

Lemma diffs_affine a b l :
  diffs ((λ z, z * b + a) <$> l) = (λ d, d * b) <$> diffs l.
Proof.
  induction l as [|x [|y l] IH]; [done..|].
  cbn [diffs fmap list_fmap] in *. rewrite IH. f_equal. lia.
Qed.

(** X4. Transforming a pset of one pitch class with a multiplier b > 0
    multiplies every entry of its set-class by b; a transposition, (n, 1),
    leaves the set-class as it is. *)
Theorem p_set_class_transformed v (pset : gset pitch) (a b : Z) :
  all_of_kind v pset → 0 < b →
  p_set_class (transform pset (a, b)) = (λ d, d * b) <$> p_set_class pset ∧
  p_set_class (transform pset (a, 1)) = p_set_class pset.
Proof.
  intros Hkind Hb. unfold p_set_class. rewrite !set_class_intlist_diffs.
  rewrite !(sorted_values_transform v) by (done || lia).
  rewrite !diffs_affine. split; [done|].
  rewrite <- (list_fmap_id (diffs _)) at 2. apply list_fmap_ext.
  intros _ d _. simpl. lia.
Qed.

Lemma p_set_class_transformed_witness :
  p_set_class (transform {[ pc12 0; pc12 1; pc12 4 ]} (5, 2))
  = (λ d, d * 2) <$> p_set_class {[ pc12 0; pc12 1; pc12 4 ]} ∧
  p_set_class (transform {[ pc12 0; pc12 1; pc12 4 ]} (5, 1))
  = p_set_class {[ pc12 0; pc12 1; pc12 4 ]}.
Proof.
  apply (p_set_class_transformed PitchClass12); [|lia].
  unfold all_of_kind. by_evaluation.
Defined.

Lemma p_ic_roster_transform v (pset : gset pitch) (n : Z) :
  all_of_kind v pset →
  p_ic_roster (transform pset (n, 1)) = p_ic_roster pset.
Proof.
  intros Hkind.
  pose proof (sorted_values_transform v pset n 1 Hkind ltac:(lia)) as Hval.
  unfold p_ic_roster.
  rewrite !sorted_pseg_length, (size_transform v) by (done || lia).
  apply roster_loop_values. intros i j Hij.
  rewrite (values_lookup_total _ _ _ i Hval), (values_lookup_total _ _ _ j Hval)
    by (rewrite sorted_pseg_length; lia).
  f_equal. lia.
Qed.

(** X10. Transposing a pset of one pitch class with [transform] leaves its
    roster as it is. *)
Theorem p_ic_roster_transposed v (pset : gset pitch) (n : Z) :
  all_of_kind v pset →
  p_ic_roster (transform pset (n, 1)) = p_ic_roster pset.
Proof. apply p_ic_roster_transform. Qed.

Lemma p_ic_roster_transposed_witness :
  p_ic_roster (transform {[ pc12 0; pc12 1; pc12 4 ]} (5, 1))
  = p_ic_roster {[ pc12 0; pc12 1; pc12 4 ]}.
Proof.
  apply (p_ic_roster_transposed PitchClass12).
  unfold all_of_kind. by_evaluation.
Defined.

(** X12. Transposing two psets of one pitch class by the same n with
    [transform] leaves their similarity as it is. *)
Theorem pm_similarity_transposed v (A B : gset pitch) (n : Z) :
  all_of_kind v A → all_of_kind v B →
  pm_similarity (transform A (n, 1)) (transform B (n, 1)) None None
  = pm_similarity A B None None.
Proof.
  intros HA HB. unfold pm_similarity. cbn [default].
  rewrite !(p_ic_roster_transform v) by done. f_equal.
  assert (all_of_kind v (A ∪ B)) as HAB
    by (intros x [?|?]%elem_of_union; auto).
  assert (transform A (n, 1) ∩ transform B (n, 1) = transform (A ∩ B) (n, 1))
    as ->.
  { apply set_eq. intros y.
    rewrite elem_of_intersection, !elem_of_transform. split.
    - intros [(x & Hx & ->) (x' & Hx' & Heq)]. exists x. split; [|done].
      apply elem_of_intersection. split; [done|].
      assert (x = x') as ->; [|done].
      apply (transform_inj v (A ∪ B) n 1); [done | lia | | | done];
        apply elem_of_union; auto.
    - intros (x & [Hx Hx']%elem_of_intersection & ->). split; by exists x. }
  rewrite (size_transform v); [done | | lia].
  intros x [Hx _]%elem_of_intersection. by apply HA.
Qed.

Lemma pm_similarity_transposed_witness :
  pm_similarity (transform {[ pc12 0; pc12 4; pc12 7 ]} (2, 1))
                (transform {[ pc12 0; pc12 3; pc12 7 ]} (2, 1)) None None
  = pm_similarity {[ pc12 0; pc12 4; pc12 7 ]} {[ pc12 0; pc12 3; pc12 7 ]}
      None None.
Proof.
  apply (pm_similarity_transposed PitchClass12);
    unfold all_of_kind; by_evaluation.
Defined.

(** X15. Transposing a pset of one pitch class with [transform] leaves its
    grid as it is. *)
Theorem p_ic_matrix_transposed uninit v (pset : gset pitch) (n : Z) :
  all_of_kind v pset →
  p_ic_matrix uninit (transform pset (n, 1)) = p_ic_matrix uninit pset.
Proof.
  intros Hkind.
  pose proof (sorted_values_transform v pset n 1 Hkind ltac:(lia)) as Hval.
  pose proof (size_transform v pset n 1 Hkind ltac:(lia)) as Hsize.
  assert (∀ i j, (i < size pset)%nat → (j < size pset)%nat →
            diff_at (sorted_pseg (transform pset (n, 1))) i j
            = diff_at (sorted_pseg pset) i j) as Hdiff.
  { intros i j Hi Hj. unfold diff_at.
    rewrite (values_lookup_total _ _ _ i Hval), (values_lookup_total _ _ _ j Hval)
      by (by rewrite sorted_pseg_length).
    f_equal. lia. }
  rewrite !p_ic_matrix_result, Hsize.
  assert (grid_fits (sorted_pseg (transform pset (n, 1))) (size pset)
          ↔ grid_fits (sorted_pseg pset) (size pset)) as Hfits.
  { unfold grid_fits. rewrite !Forall_forall.
    split; intros Hall i Hi; specialize (Hall i Hi);
      rewrite Forall_forall in Hall; apply Forall_forall; intros j Hj;
      specialize (Hall j Hj); apply elem_of_seq in Hi, Hj;
      [rewrite <- Hdiff by lia | rewrite Hdiff by lia]; done. }
  destruct (decide (grid_fits (sorted_pseg pset) (size pset))) as [Hyes|Hno].
  - rewrite decide_True by (by apply Hfits). f_equal.
    apply (well_shaped_cells_eq (size pset)); [apply filled_well_shaped..|].
    intros i j Hi Hj. by rewrite !filled_cell, Hdiff.
  - by rewrite decide_False by (by rewrite Hfits).
Qed.

Lemma p_ic_matrix_transposed_witness :
  p_ic_matrix (λ _ _, 0) (transform {[ pc12 0; pc12 1; pc12 4 ]} (5, 1))
  = p_ic_matrix (λ _ _, 0) {[ pc12 0; pc12 1; pc12 4 ]}.
Proof.
  apply (p_ic_matrix_transposed _ PitchClass12).
  unfold all_of_kind. by_evaluation.
Defined.

(** ** More on the figured-bass list *)

Lemma fb_intlist_tail n pset p0 : fb_intlist n pset p0 = tail (fb_sorted n pset p0).
Proof. unfold fb_intlist. by destruct (fb_sorted n pset p0). Qed.

Lemma length_fb_sorted n pset p0 : length (fb_sorted n pset p0) = size pset.
Proof. by rewrite fb_sorted_perm, length_fmap. Qed.

(** X22. Run on its own with a modulus of 12 or 24 supplied, the list
    computation of [fb_class] (the loop, the sort and the deletion) gives a
    list with one entry less than the pset has elements (none for the empty
    pset), sorted ascending, every entry at least 0 and below the modulus.
    [fb_class] itself raises before it reaches this computation. *)
Theorem fb_intlist_shape t (pset : gset pitch) (p0 : Z) :
  let n := modulus_of t in
  length (fb_intlist n pset p0) = (size pset - 1)%nat ∧
  Sorted Z.le (fb_intlist n pset p0) ∧
  Forall (λ r, 0 ≤ r < n) (fb_intlist n pset p0).
Proof.
  intros n. rewrite fb_intlist_tail.
  pose proof (length_fb_sorted n pset p0) as Hlen.
  pose proof (Sorted_merge_sort Z.le
                ((λ x, (p x - p0) `mod` n) <$> elements pset)) as Hsorted.
  fold (fb_sorted n pset p0) in Hsorted.
  assert (Forall (λ r, 0 ≤ r < n) (fb_sorted n pset p0)) as Hrange.
  { apply Forall_forall. intros r Hr.
    apply (fb_sorted_range n pset p0); [apply modulus_of_pos | done]. }
  destruct (fb_sorted n pset p0) as [|r rest]; simpl in *.
  - split; [lia|]. split; constructor.
  - split; [lia|]. split.
    + by apply Sorted_inv in Hsorted as [? _].
    + by apply Forall_cons in Hrange as [_ ?].
Qed.

(** Only the residue of p0 matters: moving p0 by a multiple of the
    modulus changes neither the list nor the entry removed. *)
Lemma fb_intlist_reference_mod (n : Z) (pset : gset pitch) (p0 k : Z) :
  fb_intlist n pset (p0 + k * n) = fb_intlist n pset p0 ∧
  fb_removed n pset (p0 + k * n) = fb_removed n pset p0.
Proof.
  assert (fb_sorted n pset (p0 + k * n) = fb_sorted n pset p0) as Heq.
  { unfold fb_sorted. f_equal. apply list_fmap_ext. intros _ x _.
    replace (p x - (p0 + k * n)) with (p x - p0 + (- k) * n) by lia.
    apply Z_mod_plus_full. }
  by rewrite !fb_intlist_tail, Heq; unfold fb_removed; rewrite Heq.
Qed.

(** Transposing the pset and p0 together changes nothing: for a pset
    of one pitch class, the pset built by the loop of [transpose] for n and
    the reference p0 + n give the same list. *)
Lemma fb_intlist_transposed v (m : Z) (pset B : gset pitch) (p0 n : Z) :
  all_of_kind v pset →
  transpose_loop (TPitch v) pset n = Ok B →
  fb_intlist m B (p0 + n) = fb_intlist m pset p0.
Proof.
  intros Hkind. rewrite transpose_loop_pitch. intros [= <-].
  rewrite !fb_intlist_tail. f_equal.
  apply (Sorted_unique Z.le); [apply Sorted_merge_sort, _..|].
  rewrite !fb_sorted_perm, elements_set_map_perm
    by (intros x y; by apply (all_of_kind_shift_inj v)).
  rewrite <- list_fmap_compose.
  rewrite (list_fmap_ext _ (λ x, (p x - p0) `mod` m)); [done|].
  intros _ x _. simpl. f_equal. lia.
Qed.

Lemma fb_intlist_transposed_witness :
  fb_intlist 12 {[ pc12 5; pc12 9; pc12 12 ]} (0 + 5)
  = fb_intlist 12 {[ pc12 0; pc12 4; pc12 7 ]} 0.
Proof.
  apply (fb_intlist_transposed PitchClass12).
  - unfold all_of_kind. by_evaluation.
  - vm_compute. reflexivity.
Defined.

(** ** More on the loop of pcint_class *)

Lemma fmap_mod_small n (l : list Z) :
  Forall (λ d, 0 ≤ d < n) l → (λ d, d `mod` n) <$> l = l.
Proof.
  induction 1 as [|d l Hd _ IH]; [done|].
  by rewrite fmap_cons, IH, Z.mod_small.
Qed.

(** X23. Run on its own with a modulus of 12 or 24 supplied, the loop of
    [pcint_class] gives the set-class with every entry reduced modulo the
    modulus, so its entries are at least 0 and below the modulus; when no
    two values of the pset are a modulus or more apart it gives the
    set-class itself.  [pcint_class] itself raises before it reaches this
    loop. *)
Theorem pcint_intlist_reduces_set_class t (pset : gset pitch) :
  let n := modulus_of t in
  pcint_intlist n (sorted_pseg pset) = (λ d, d `mod` n) <$> p_set_class pset ∧
  Forall (λ r, 0 ≤ r < n) (pcint_intlist n (sorted_pseg pset)) ∧
  ((∀ x y, x ∈ pset → y ∈ pset → p y - p x < n) →
   pcint_intlist n (sorted_pseg pset) = p_set_class pset).
Proof.
  intros n.
  assert (pcint_intlist n (sorted_pseg pset)
          = (λ d, d `mod` n) <$> p_set_class pset) as Heq.
  { unfold pcint_intlist, p_set_class, set_class_intlist.
    by rewrite <- list_fmap_compose. }
  split; [done|]. split.
  - rewrite Heq. apply Forall_fmap, Forall_forall. intros d _. simpl.
    apply Z.mod_pos_bound, modulus_of_pos.
  - intros Hspan. rewrite Heq. apply fmap_mod_small, Forall_lookup.
    intros i d. unfold p_set_class, set_class_intlist.
    rewrite list_lookup_fmap_Some. intros (k & -> & [-> Hk]%lookup_seq).
    rewrite sorted_pseg_length in Hk. simpl. rewrite Nat.sub_0_r.
    destruct (sorted_pseg_lookup pset i) as (x & Hx & -> & Hxin); [lia|].
    destruct (sorted_pseg_lookup pset (S i)) as (y & Hy & -> & Hyin); [lia|].
    assert (p x ≤ p y)
      by (apply (sorted_values_lookup_le pset i (S i)); [lia | done..]).
    specialize (Hspan x y Hxin Hyin). lia.
Qed.

Lemma pcint_intlist_reduces_set_class_witness :
  pcint_intlist 12 (sorted_pseg {[ pc12 0; pc12 4; pc12 7 ]})
  = p_set_class {[ pc12 0; pc12 4; pc12 7 ]}.
Proof.
  apply (pcint_intlist_reduces_set_class (TPitch PitchClass12)).
  intros x y Hx Hy. revert y Hy. revert x Hx. by_evaluation.
Defined.

(** ** More on the loop of subsets *)

Lemma rebuild_sorted_pseg v pset :
  all_of_kind v pset →
  (λ i, mkPitch v (p (sorted_pseg pset !!! i))) <$> seq 0 (size pset)
  = sorted_pseg pset.
Proof.
  intros Hkind. apply list_eq. intros i. rewrite list_lookup_fmap.
  destruct (decide (i < size pset)%nat) as [Hi|Hi].
  - rewrite lookup_seq_lt by done. simpl. rewrite masked_rebuild by done.
    by destruct (sorted_pseg_lookup pset i Hi) as (x & -> & -> & _).
  - rewrite (lookup_ge_None_2 (seq 0 (size pset))) by (rewrite length_seq; lia).
    symmetry. apply lookup_ge_None_2. rewrite sorted_pseg_length. lia.
Qed.

(** X20. Run with the pitch class of the elements as element type, the
    loop of [subsets] returns a sorted list of 2^n pairwise distinct entries
    for a pset of n elements, among them the empty list and the
    ascending-sorted list of all elements. *)
Theorem subsets_loop_enumerates v (pset : gset pitch) :
  all_of_kind v pset →
  ∃ sub, subsets_loop (TPitch v) pset = Ok sub ∧
    length sub = (2 ^ size pset)%nat ∧ Sorted pitches_le sub ∧ NoDup sub ∧
    [] ∈ sub ∧ sorted_pseg pset ∈ sub.
Proof. apply subsets_loop_spec. Qed.

Lemma subsets_loop_enumerates_witness :
  ∃ sub, subsets_loop (TPitch PitchClass12) {[ pc12 0; pc12 1; pc12 4 ]} = Ok sub ∧
    length sub = (2 ^ size ({[ pc12 0; pc12 1; pc12 4 ]} : gset pitch))%nat ∧
    Sorted pitches_le sub ∧ NoDup sub ∧
    [] ∈ sub ∧ sorted_pseg {[ pc12 0; pc12 1; pc12 4 ]} ∈ sub.
Proof. apply subsets_loop_enumerates. unfold all_of_kind. by_evaluation. Defined.

(** X21. Every entry that the loop of [subsets] returns for a pset of one
    pitch class is a subsequence of the ascending-sorted elements of the
    pset: its elements are elements of the pset, in ascending order. *)
Theorem subsets_loop_entries v (pset : gset pitch) sub row :
  all_of_kind v pset →
  subsets_loop (TPitch v) pset = Ok sub → row ∈ sub →
  row `sublist_of` sorted_pseg pset.
Proof.
  intros Hkind. rewrite subsets_loop_pitch. intros [= <-].
  unfold sort_subs. rewrite merge_sort_Permutation.
  intros (index & -> & _)%list_elem_of_fmap.
  rewrite <- (rebuild_sorted_pseg v pset Hkind) at 2.
  unfold masked. apply fmap_sublist, sublist_filter.
Qed.

Lemma subsets_loop_entries_witness :
  [pc12 0; pc12 4] `sublist_of` sorted_pseg {[ pc12 0; pc12 1; pc12 4 ]}.
Proof.
  apply (subsets_loop_entries PitchClass12 {[ pc12 0; pc12 1; pc12 4 ]}
           [[]; [pc12 0]; [pc12 0; pc12 1]; [pc12 0; pc12 1; pc12 4];
            [pc12 0; pc12 4]; [pc12 1]; [pc12 1; pc12 4]; [pc12 4]]).
  - unfold all_of_kind. by_evaluation.
  - vm_compute. reflexivity.
  - by_evaluation.
Defined.

(** ** More on the loops of transpose and invert *)

(** X18. Run with a pitch class as element type, the loop of [transpose]
    for m followed by the loop for n builds what the loop for m + n builds. *)
Theorem transpose_loop_adds v (A : gset pitch) (m n : Z) :
  transpose_loop (TPitch v) A m ≫= (λ B, transpose_loop (TPitch v) B n)
  = transpose_loop (TPitch v) A (m + n).
Proof. apply transpose_loop_compose. Qed.

(** X19. Run with the pitch class of the elements as element type, the loop
    of [invert] applied twice gives the pset back. *)
Theorem invert_loop_twice v (A : gset pitch) :
  all_of_kind v A →
  invert_loop (TPitch v) A ≫= invert_loop (TPitch v) = Ok A.
Proof. apply invert_loop_involutive. Qed.

Lemma invert_loop_twice_witness :
  invert_loop (TPitch PitchClass12) {[ pc12 1; pc12 5 ]}
    ≫= invert_loop (TPitch PitchClass12)
  = Ok {[ pc12 1; pc12 5 ]}.
Proof. apply invert_loop_twice. unfold all_of_kind. by_evaluation. Defined.

(** For a pset of one pitch class, the loop of [transpose] for n
    followed by the loop for -n gives the pset back, and the loop for 0
    returns the pset itself. *)
Lemma transpose_loop_inverse v (A : gset pitch) (n : Z) :
  all_of_kind v A →
  transpose_loop (TPitch v) A n ≫= (λ B, transpose_loop (TPitch v) B (- n))
  = Ok A ∧
  transpose_loop (TPitch v) A 0 = Ok A.
Proof.
  intros Hkind.
  assert (∀ x, x ∈ A → mkPitch v (p x) = x) as Hre.
  { intros x Hx. rewrite <- (Hkind x Hx). by destruct x. }
  split.
  - rewrite transpose_loop_pitch. simpl. rewrite transpose_loop_pitch.
    f_equal. apply set_eq. intros y. rewrite elem_of_map. split.
    + intros (z & -> & (x & -> & Hx)%elem_of_map). simpl.
      replace (p x + n + - n) with (p x) by lia. by rewrite Hre.
    + intros Hy. exists (mkPitch v (p y + n)). simpl. split.
      * replace (p y + n + - n) with (p y) by lia. by rewrite Hre.
      * apply elem_of_map. eauto.
  - rewrite transpose_loop_pitch. f_equal. apply set_eq. intros y.
    rewrite elem_of_map. split.
    + intros (x & -> & Hx). rewrite Z.add_0_r. by rewrite Hre.
    + intros Hy. exists y. by rewrite Z.add_0_r, Hre.
Qed.

Lemma transpose_loop_inverse_witness :
  transpose_loop (TPitch PitchClass12) {[ pc12 0; pc12 4; pc12 7 ]} 5
    ≫= (λ B, transpose_loop (TPitch PitchClass12) B (Z.opp 5))
  = Ok {[ pc12 0; pc12 4; pc12 7 ]} ∧
  transpose_loop (TPitch PitchClass12) {[ pc12 0; pc12 4; pc12 7 ]} 0
  = Ok {[ pc12 0; pc12 4; pc12 7 ]}.
Proof.
  assert (all_of_kind PitchClass12 {[ pc12 0; pc12 4; pc12 7 ]}) as Hkind
    by (unfold all_of_kind; by_evaluation).
  exact (transpose_loop_inverse PitchClass12 {[ pc12 0; pc12 4; pc12 7 ]} 5 Hkind).
Defined.

(** Inverting a transposed pset is transposing the inverted pset the
    other way: the loop of [transpose] for n followed by the loop of
    [invert] gives what the loop of [invert] followed by the loop of
    [transpose] for -n gives. *)
Lemma invert_transpose_loops v (A : gset pitch) (n : Z) :
  transpose_loop (TPitch v) A n ≫= invert_loop (TPitch v)
  = invert_loop (TPitch v) A ≫= (λ B, transpose_loop (TPitch v) B (- n)).
Proof.
  rewrite transpose_loop_pitch, invert_loop_pitch. simpl.
  rewrite transpose_loop_pitch, invert_loop_pitch.
  f_equal. apply set_eq. intros y. rewrite !elem_of_map. split.
  - intros (z & -> & (x & -> & Hx)%elem_of_map). simpl.
    exists (mkPitch v (p x * -1)). simpl. split; [f_equal; lia|].
    apply elem_of_map. eauto.
  - intros (z & -> & (x & -> & Hx)%elem_of_map). simpl.
    exists (mkPitch v (p x + n)). simpl. split; [f_equal; lia|].
    apply elem_of_map. eauto.
Qed.

(** X16. Whatever set they are given, [fb_class], [invert], [pcint_class],
    [subsets] and [transpose] raise [TypeError]: each applies [next] to the
    set itself before anything else is computed from it. *)
Theorem type_inference_always_raises (pset : gset pitch) (p0 n : Z) :
  fb_class pset p0 = Raise TypeError ∧
  invert pset = Raise TypeError ∧
  pcint_class pset = Raise TypeError ∧
  subsets pset = Raise TypeError ∧
  transpose pset n = Raise TypeError.
Proof.
  by rewrite fb_class_raises, invert_raises, pcint_class_raises,
    subsets_raises, transpose_raises.
Qed.

(** ** util.py: map_to_chromatic *)

Lemma py_position_ok len i :
  0 ≤ i < Z.of_nat len → Util.py_position len i = Util.Ok (Z.to_nat i).
Proof. intros Hi. unfold Util.py_position. by rewrite decide_True. Qed.

Lemma py_getitem_ok (l : list Z) i :
  0 ≤ i < Z.of_nat (length l) →
  Util.py_getitem l i = Util.Ok (l !!! Z.to_nat i).
Proof.
  intros Hi. unfold Util.py_getitem. rewrite py_position_ok by done. simpl.
  destruct (lookup_lt_is_Some_2 l (Z.to_nat i)) as [x Hx]; [lia|].
  by rewrite Hx, (list_lookup_total_correct _ _ _ Hx).
Qed.

Lemma py_setitem_ok (l : list Z) i v :
  0 ≤ i < Z.of_nat (length l) →
  Util.py_setitem l i v = Util.Ok (<[Z.to_nat i := v]> l).
Proof.
  intros Hi. unfold Util.py_setitem. by rewrite py_position_ok.
Qed.

Lemma py_mod_ok a b : b ≠ 0 → Util.py_mod a b = Util.Ok (a `mod` b).
Proof. intros Hb. unfold Util.py_mod. by rewrite decide_False. Qed.

Lemma py_floordiv_ok a b : b ≠ 0 → Util.py_floordiv a b = Util.Ok (a `div` b).
Proof. intros Hb. unfold Util.py_floordiv. by rewrite decide_False. Qed.

Lemma util_for_in_ok {A S} (body : S → A → Util.result S) (step : S → A → S) l s :
  (∀ s x, body s x = Util.Ok (step s x)) →
  Util.for_in l body s = Util.Ok (foldl step s l).
Proof.
  intros Hbody. revert s. induction l as [|x l IH]; intros s; simpl; [done|].
  rewrite Hbody. simpl. apply IH.
Qed.

Lemma map_to_chromatic_loop scale_map sequence acc :
  scale_map ≠ [] →
  Util.for_in sequence
    (λ sequence2 p,
       r ← Util.py_mod p (Z.of_nat (length scale_map));
       pc ← Util.py_mod (r + Z.of_nat (length scale_map))
              (Z.of_nat (length scale_map));
       q ← Util.py_floordiv p (Z.of_nat (length scale_map));
       x ← Util.py_getitem scale_map pc;
       mret (sequence2 ++ [q * 12 + x]))
    acc
  = Util.Ok (acc ++ (chromatic_of scale_map <$> sequence)).
Proof.
  intros Hne.
  assert (0 < Z.of_nat (length scale_map)) as Hs
    by (destruct scale_map; [done | simpl; lia]).
  rewrite (util_for_in_ok _
    (λ sequence2 p, sequence2 ++ [chromatic_of scale_map p])).
  - by rewrite (foldl_snoc_all (chromatic_of scale_map)).
  - intros sequence2 p.
    rewrite py_mod_ok by lia. cbn [mbind Util.result_bind].
    rewrite py_mod_ok by lia. cbn [mbind Util.result_bind].
    rewrite py_floordiv_ok by lia. cbn [mbind Util.result_bind].
    replace ((p `mod` Z.of_nat (length scale_map) + Z.of_nat (length scale_map))
               `mod` Z.of_nat (length scale_map))
      with (p `mod` Z.of_nat (length scale_map)).
    2:{ rewrite <- (Z.mul_1_l (Z.of_nat (length scale_map))) at 3.
        by rewrite Z_mod_plus_full, Z.mod_mod by lia. }
    rewrite py_getitem_ok by (by apply Z.mod_pos_bound). done.
Qed.

Lemma map_to_chromatic_ok scale_map sequence :
  scale_map ≠ [] →
  Util.map_to_chromatic scale_map sequence
  = Util.Ok (chromatic_of scale_map <$> sequence).
Proof.
  intros Hne. unfold Util.map_to_chromatic.
  by rewrite map_to_chromatic_loop.
Qed.

(** X24. With a non-empty scale map [map_to_chromatic] raises nothing and
    returns one item per item of the sequence: the item p becomes
    (p // smod) * 12 + scale_map[p % smod], for smod the length of the scale
    map, and the index p % smod is always a position of the scale map. *)
Theorem map_to_chromatic_total (scale_map sequence : list Z) :
  scale_map ≠ [] →
  let smod := Z.of_nat (length scale_map) in
  ∃ out, Util.map_to_chromatic scale_map sequence = Util.Ok out ∧
    length out = length sequence ∧
    ∀ i p, sequence !! i = Some p →
      ∃ x, scale_map !! Z.to_nat (p `mod` smod) = Some x ∧
           out !! i = Some (p `div` smod * 12 + x).
Proof.
  intros Hne smod. eexists. split; [by apply map_to_chromatic_ok|].
  split; [by rewrite length_fmap|].
  intros i p Hp.
  assert (0 < smod) as Hs by (subst smod; destruct scale_map; [done | simpl; lia]).
  destruct (lookup_lt_is_Some_2 scale_map (Z.to_nat (p `mod` smod))) as [x Hx].
  { pose proof (Z.mod_pos_bound p smod Hs). subst smod. lia. }
  exists x. split; [done|].
  rewrite list_lookup_fmap, Hp. simpl. unfold chromatic_of.
  by rewrite (list_lookup_total_correct _ _ _ Hx).
Qed.

Lemma map_to_chromatic_total_witness :
  ∃ out, Util.map_to_chromatic [0; 2; 4; 5; 7; 9; 11] [0; 1; 7; -1; 8]
         = Util.Ok out ∧
    length out = 5%nat ∧
    ∀ i p, [0; 1; 7; -1; 8] !! i = Some p →
      ∃ x, [0; 2; 4; 5; 7; 9; 11] !! Z.to_nat (p `mod` 7) = Some x ∧
           out !! i = Some (p `div` 7 * 12 + x).
Proof. apply (map_to_chromatic_total [0; 2; 4; 5; 7; 9; 11]). done. Defined.

(** X25. With an empty scale map [map_to_chromatic] raises
    [ZeroDivisionError] as soon as the sequence has an item, and returns the
    empty list for the empty sequence. *)
Theorem map_to_chromatic_empty_scale (sequence : list Z) :
  Util.map_to_chromatic [] sequence
  = match sequence with
    | [] => Util.Ok []
    | _ :: _ => Util.Raise Util.ZeroDivisionError
    end.
Proof. by destruct sequence. Qed.

(** X26. The scale map 0, 1, ..., 11 of the chromatic collection maps every
    sequence to itself. *)
Theorem map_to_chromatic_identity (sequence : list Z) :
  Util.map_to_chromatic (seqZ 0 12) sequence = Util.Ok sequence.
Proof.
  rewrite map_to_chromatic_ok by done. f_equal.
  rewrite <- (list_fmap_id sequence) at 2. apply list_fmap_ext.
  intros _ p _. unfold chromatic_of.
  change (Z.of_nat (length (seqZ 0 12))) with 12.
  pose proof (Z.mod_pos_bound p 12 ltac:(lia)) as Hr.
  rewrite lookup_total_seqZ_lt by lia.
  rewrite Z2Nat.id by lia. simpl.
  pose proof (Z.div_mod p 12 ltac:(lia)). lia.
Qed.

(** X27. Raising an item by the length of the scale map raises its image by
    an octave, 12. *)
Theorem map_to_chromatic_octave (scale_map sequence out : list Z) :
  Util.map_to_chromatic scale_map sequence = Util.Ok out →
  Util.map_to_chromatic scale_map
    ((λ p, p + Z.of_nat (length scale_map)) <$> sequence)
  = Util.Ok ((λ p2, p2 + 12) <$> out).
Proof.
  destruct (decide (scale_map = [])) as [->|Hne].
  - rewrite map_to_chromatic_empty_scale.
    destruct sequence; [|done]. by intros [= <-].
  - rewrite !map_to_chromatic_ok by done. intros [= <-]. f_equal.
    rewrite <- !list_fmap_compose. apply list_fmap_ext.
    intros _ p _. simpl. unfold chromatic_of.
    assert (0 < Z.of_nat (length scale_map)) as Hs
      by (destruct scale_map; [done | simpl; lia]).
    rewrite <- (Z.mul_1_l (Z.of_nat (length scale_map))) at 1 3.
    rewrite Z.div_add, Z_mod_plus_full by lia. lia.
Qed.

Lemma map_to_chromatic_octave_witness :
  Util.map_to_chromatic [0; 2; 4; 5; 7; 9; 11]
    ((λ p, p + Z.of_nat (length [0; 2; 4; 5; 7; 9; 11])) <$> [0; 1; -1])
  = Util.Ok ((λ p2, p2 + 12) <$> [0; 2; -1]).
Proof. apply map_to_chromatic_octave. vm_compute. reflexivity. Defined.

Lemma StronglySorted_lookup {A} (R : relation A) (l : list A) i j x y :
  StronglySorted R l → (i < j)%nat → l !! i = Some x → l !! j = Some y → R x y.
Proof.
  intros Hs Hij Hx Hy.
  apply list_elem_of_split_length in Hx as (l1 & l2 & -> & ->).
  apply StronglySorted_app_1_r, StronglySorted_inv in Hs as [_ Hall].
  rewrite lookup_app_r in Hy by lia.
  destruct (j - length l1)%nat as [|k] eqn:Hk; [lia|]. simpl in Hy.
  rewrite Forall_forall in Hall. apply Hall. by eapply list_elem_of_lookup_2.
Qed.

(** X28. A scale map that ascends strictly within one octave keeps the
    order of the items: if p < q, the image of p is below the image of q. *)
Theorem map_to_chromatic_monotone (scale_map : list Z) (p q : Z) :
  scale_map ≠ [] → StronglySorted Z.lt scale_map →
  Forall (λ x, 0 ≤ x < 12) scale_map → p < q →
  ∃ p2 q2, Util.map_to_chromatic scale_map [p; q] = Util.Ok [p2; q2] ∧ p2 < q2.
Proof.
  intros Hne Hsorted Hrange Hpq.
  exists (chromatic_of scale_map p), (chromatic_of scale_map q).
  split; [by rewrite map_to_chromatic_ok|].
  unfold chromatic_of. set (s := Z.of_nat (length scale_map)).
  assert (0 < s) as Hs by (subst s; destruct scale_map; [done | simpl; lia]).
  pose proof (Z.mod_pos_bound p s Hs) as Hrp.
  pose proof (Z.mod_pos_bound q s Hs) as Hrq.
  destruct (lookup_lt_is_Some_2 scale_map (Z.to_nat (p `mod` s))) as [x Hx];
    [subst s; lia|].
  destruct (lookup_lt_is_Some_2 scale_map (Z.to_nat (q `mod` s))) as [y Hy];
    [subst s; lia|].
  rewrite (list_lookup_total_correct _ _ _ Hx),
    (list_lookup_total_correct _ _ _ Hy).
  rewrite Forall_lookup in Hrange.
  pose proof (Hrange _ _ Hx). pose proof (Hrange _ _ Hy).
  pose proof (Z.div_mod p s ltac:(lia)) as Hp.
  pose proof (Z.div_mod q s ltac:(lia)) as Hq.
  destruct (decide (p `div` s = q `div` s)) as [Heq|Hne'].
  - rewrite Heq.
    assert (x < y); [|lia].
    apply (StronglySorted_lookup Z.lt scale_map
             (Z.to_nat (p `mod` s)) (Z.to_nat (q `mod` s))); [done| |done..].
    rewrite Heq in Hp. lia.
  - assert (p `div` s ≤ q `div` s) by (apply Z.div_le_mono; lia). lia.
Qed.

Lemma map_to_chromatic_monotone_witness :
  ∃ p2 q2, Util.map_to_chromatic [0; 2; 4; 5; 7; 9; 11] [-1; 3]
           = Util.Ok [p2; q2] ∧ p2 < q2.
Proof.
  apply map_to_chromatic_monotone; [done | by_evaluation | by_evaluation | lia].
Defined.

(** ** util.py: norgard *)

Lemma infinity_series_even k :
  0 ≤ k → infinity_series (2 * k) = - infinity_series k.
Proof. destruct k; [done | done | lia]. Qed.

Lemma infinity_series_odd k :
  0 ≤ k → infinity_series (2 * k + 1) = infinity_series k + 1.
Proof. destruct k; [done | done | lia]. Qed.

(** One of the two guarded stores of the loop body. *)
Lemma norgard_store n (n_list : list Z) i m (f : Z → Z) x :
  length n_list = Z.to_nat n → 0 ≤ i < n → 0 ≤ m →
  n_list !! Z.to_nat i = Some x →
  (if decide (m < n)
   then x ← Util.py_getitem n_list i; Util.py_setitem n_list m (f x)
   else mret n_list)
  = Util.Ok (if decide (m < n) then <[Z.to_nat m := f x]> n_list else n_list).
Proof.
  intros Hlen Hi Hm Hx. case_decide; [|done].
  rewrite py_getitem_ok by lia. cbn [mbind Util.result_bind].
  rewrite (list_lookup_total_correct _ _ _ Hx).
  by rewrite py_setitem_ok by lia.
Qed.

Lemma norgard_body_inv n n_list i m :
  norgard_inv n n_list i → norgard_head i m → m < n →
  ∃ n_list', Util.norgard_body n n_list i = Util.Ok (n_list', i + 1, 2 * i + 1) ∧
    norgard_inv n n_list' (i + 1).
Proof.
  intros (Hlen & Hi & Hterms) Hhead Hm.
  assert (0 ≤ i < n) as Hin by (destruct Hhead as [[-> ->]|[? ->]]; lia).
  assert (n_list !! Z.to_nat i = Some (infinity_series i)) as Hli
    by (apply Hterms; lia).
  set (l1 := if decide (2 * i < n)
             then <[Z.to_nat (2 * i) := - infinity_series i]> n_list
             else n_list).
  assert (length l1 = Z.to_nat n) as Hlen1
    by (subst l1; case_decide; by rewrite ?length_insert).
  assert (∀ k, 0 ≤ k < n → k < 2 * i + 1 →
            l1 !! Z.to_nat k = Some (infinity_series k)) as H1.
  { intros k Hk Hk2. subst l1. case_decide.
    - destruct (decide (k = 2 * i)) as [->|Hne].
      + rewrite list_lookup_insert_eq by lia.
        by rewrite infinity_series_even.
      + rewrite list_lookup_insert_ne by lia. apply Hterms; lia.
    - apply Hterms; lia. }
  set (l2 := if decide (2 * i + 1 < n)
             then <[Z.to_nat (2 * i + 1) := infinity_series i + 1]> l1
             else l1).
  assert (length l2 = Z.to_nat n) as Hlen2
    by (subst l2; case_decide; by rewrite ?length_insert).
  exists l2. split.
  - unfold Util.norgard_body.
    rewrite (norgard_store n n_list i (2 * i) Z.opp (infinity_series i))
      by (done || lia).
    cbn [mbind Util.result_bind]. fold l1.
    rewrite (norgard_store n l1 i (2 * i + 1) (λ x, x + 1) (infinity_series i));
      [done | done | lia | lia | apply H1; lia].
  - split; [done|]. split; [lia|].
    intros k Hk Hk2. subst l2. case_decide.
    + destruct (decide (k = 2 * i + 1)) as [->|Hne].
      * rewrite list_lookup_insert_eq by lia.
        by rewrite infinity_series_odd.
      * rewrite list_lookup_insert_ne by lia. apply H1; lia.
    + apply H1; lia.
Qed.

Lemma norgard_inv_done n n_list i m :
  norgard_inv n n_list i → norgard_head i m → ¬ m < n →
  n_list = infinity_series <$> seqZ 0 n.
Proof.
  intros (Hlen & Hi & Hterms) Hhead Hm. apply list_eq. intros k.
  destruct (decide (Z.of_nat k < n)) as [Hk|Hk].
  - rewrite list_lookup_fmap, lookup_seqZ_lt by done. simpl.
    rewrite <- (Nat2Z.id k) at 1. apply Hterms; [lia|].
    destruct Hhead as [[-> ->]|[? ->]]; lia.
  - rewrite !lookup_ge_None_2; [done|..].
    + rewrite length_fmap, length_seqZ. lia.
    + lia.
Qed.

Lemma norgard_while_ok n fuel :
  ∀ n_list i m,
    norgard_inv n n_list i → norgard_head i m →
    (Z.to_nat n + 1 ≤ fuel + Z.to_nat i)%nat →
    Util.norgard_while fuel n n_list i m
    = Some (Util.Ok (infinity_series <$> seqZ 0 n)).
Proof.
  induction fuel as [|fuel IH]; intros n_list i m Hinv Hhead Hfuel;
    cbn [Util.norgard_while]; destruct (decide (m < n)) as [Hm|Hm].
  - destruct Hhead as [[-> ->]|[? ->]]; lia.
  - by rewrite (norgard_inv_done n n_list i m).
  - destruct (norgard_body_inv n n_list i m Hinv Hhead Hm) as (l' & -> & Hinv').
    apply IH; [done | right; destruct Hinv as (_ & ? & _); lia |].
    destruct Hinv as (_ & ? & _). lia.
  - by rewrite (norgard_inv_done n n_list i m).
Qed.

Lemma norgard_series n :
  Util.norgard n = Some (Util.Ok (infinity_series <$> seqZ 0 n)).
Proof.
  unfold Util.norgard. apply norgard_while_ok.
  - split; [by rewrite length_replicate|]. split; [done|].
    intros k Hk Hk1. assert (k = 0) as -> by lia.
    apply lookup_replicate_2. lia.
  - by left.
  - lia.
Qed.

(** X29. [norgard(n)] ends without raising and returns a list of n items
    (none for n ≤ 0) that obeys the recurrence of the series: item 0 is 0,
    item 2k is the negation of item k, and item 2k+1 is item k plus 1. *)
Theorem norgard_recurrence (n : Z) :
  ∃ n_list, Util.norgard n = Some (Util.Ok n_list) ∧
    length n_list = Z.to_nat n ∧
    ∀ k x, n_list !! k = Some x →
      (k = 0%nat → x = 0) ∧
      (∀ y, n_list !! (2 * k)%nat = Some y → y = - x) ∧
      (∀ y, n_list !! (2 * k + 1)%nat = Some y → y = x + 1).
Proof.
  eexists. split; [apply norgard_series|].
  split; [by rewrite length_fmap, length_seqZ|].
  assert (∀ k x, (infinity_series <$> seqZ 0 n) !! k = Some x →
            x = infinity_series (Z.of_nat k)) as Hterm.
  { intros k x. rewrite list_lookup_fmap_Some.
    intros (z & -> & [-> _]%lookup_seqZ). f_equal; lia. }
  intros k x Hx%Hterm. subst x. split; [|split].
  - by intros ->.
  - intros y Hy%Hterm. subst y.
    rewrite Nat2Z.inj_mul. apply infinity_series_even. lia.
  - intros y Hy%Hterm. subst y.
    rewrite Nat2Z.inj_add, Nat2Z.inj_mul. apply infinity_series_odd. lia.
Qed.

(** X30. The items do not depend on how many are asked for: for n ≥ 0,
    [norgard(n + 1)] is [norgard(n)] with one more item at the end. *)
Theorem norgard_prefix (n : Z) :
  0 ≤ n →
  ∃ n_list x, Util.norgard n = Some (Util.Ok n_list) ∧
    Util.norgard (n + 1) = Some (Util.Ok (n_list ++ [x])).
Proof.
  intros Hn. exists (infinity_series <$> seqZ 0 n), (infinity_series n).
  split; [apply norgard_series|].
  rewrite norgard_series. do 2 f_equal.
  rewrite seqZ_app, fmap_app by lia. by f_equal.
Qed.

Lemma norgard_prefix_witness :
  ∃ n_list x, Util.norgard 9 = Some (Util.Ok n_list) ∧
    Util.norgard (9 + 1) = Some (Util.Ok (n_list ++ [x])).
Proof. apply norgard_prefix. lia. Defined.

(** ** Worked examples *)

Example sorted_pseg_triad :
  sorted_pseg {[ pc12 7; pc12 0; pc12 4 ]} = [pc12 0; pc12 4; pc12 7].
Proof. by vm_compute. Qed.

Example p_ic_matrix_014 uninit :
  p_ic_matrix uninit {[ pc12 0; pc12 1; pc12 4 ]}
  = Ok [[0; 1; 4]; [1; 0; 3]; [4; 3; 0]].
Proof. by vm_compute. Qed.

Example p_ic_roster_014 :
  p_ic_roster {[ pc12 0; pc12 1; pc12 4 ]} = {[ 1 := 1; 3 := 1; 4 := 1 ]}.
Proof. by vm_compute. Qed.

Example pm_similarity_triads :
  pm_similarity {[ pc12 0; pc12 4; pc12 7 ]} {[ pc12 0; pc12 3; pc12 7 ]}
    None None = (2, 3).
Proof. by vm_compute. Qed.

Example pcint_intlist_wraps :
  pcint_intlist 12 [pc12 (-5); pc12 0; pc12 14] = [5; 2].
Proof. by vm_compute. Qed.

Example subsets_loop_014 :
  subsets_loop (TPitch PitchClass12) {[ pc12 0; pc12 1; pc12 4 ]}
  = Ok [[]; [pc12 0]; [pc12 0; pc12 1]; [pc12 0; pc12 1; pc12 4];
        [pc12 0; pc12 4]; [pc12 1]; [pc12 1; pc12 4]; [pc12 4]].
Proof. by vm_compute. Qed.

